(** * add-error-logging.py: the catch-block augmenter

    A shallow embedding of [scripts/add-error-logging.py] and the proofs of
    its text-transformation contract.

    The script reads a file into a Python [str], rewrites it with one call of
    [re.sub(pattern, replacement, content)] and writes it back when it
    changed.  A Python [str] is a sequence of Unicode code points, so a text
    is a list of code points; the regular expression is kept as a syntax tree
    and run by a greedy backtracking matcher, the way Python's [re] runs
    it.  The texts are the decoded ones, as [f.read()] returns them; the
    run of the program is told against an environment that says which file
    can be read, which can be written, and whether the standard output can
    encode the summary lines.

    The file has the model of the script first (matcher, callback, scan,
    [add_error_logging_to_file], [__main__]), then the vocabulary the
    statements use, then the lemmas, and the specification claim by claim
    at the end. *)

From Stdlib Require Import String Ascii.
From Stdlib Require Import List NArith Bool Arith Lia.
From Equations Require Import Equations.
From Equations.Prop Require Import Logic.
Import ListNotations.

Open Scope N_scope.
Open Scope nat_scope.
Open Scope list_scope.

(** ** Texts *)

Definition char := N.
Definition text := list char.

(** The code points of an ASCII literal of the source. *)
Definition str (s : string) : text := map N_of_ascii (list_ascii_of_string s).

Definition nl : char := 10%N.

Fixpoint text_eqb (a b : text) : bool :=
  match a, b with
  | [], [] => true
  | x :: a', y :: b' => N.eqb x y && text_eqb a' b'
  | _, _ => false
  end.

(** [lit l s]: [s] with the literal [l] removed from its front. *)
Fixpoint lit (l s : text) : option text :=
  match l with
  | [] => Some s
  | x :: l' =>
      match s with
      | y :: s' => if N.eqb x y then lit l' s' else None
      | [] => None
      end
  end.

(** Python's [needle in haystack] on [str]. *)
Fixpoint contains (needle hay : text) : bool :=
  match lit needle hay with
  | Some _ => true
  | None => match hay with
            | [] => false
            | _ :: hay' => contains needle hay'
            end
  end.

(** ** The regular expression

    [\s] on a [str] pattern is Unicode white space: the code points for which
    [str.isspace] holds. *)
Definition is_space (c : char) : bool :=
  ((9 <=? c) && (c <=? 13) || (28 <=? c) && (c <=? 32) || (c =? 133) || (c =? 160)
   || (c =? 5760) || (8192 <=? c) && (c <=? 8202) || (c =? 8232) || (c =? 8233)
   || (c =? 8239) || (c =? 8287) || (c =? 12288))%N.

Inductive cclass : Type :=
| CNot (c : char)   (* [^c] *)
| CSpace.           (* \s *)

Definition cmem (k : cclass) (c : char) : bool :=
  match k with
  | CNot x => negb (N.eqb c x)
  | CSpace => is_space c
  end.

Inductive atom : Type :=
| ALit (l : text)     (* literal characters *)
| APlus (k : cclass)  (* k+ , greedy *)
| AStar (k : cclass). (* k* , greedy *)

Section Backtrack.
Context {R : Type}.

(** Greedy repetition of a one-character class: take one more character
    when possible, and give characters back one at a time while the rest
    of the pattern, the continuation [k], fails. *)
Fixpoint star (p : char -> bool) (s : text) (k : text -> option R) : option R :=
  match s with
  | c :: s' =>
      if p c then
        match star p s' k with
        | Some r => Some r
        | None => k s
        end
      else k s
  | [] => k []
  end.

Definition plus (p : char -> bool) (s : text) (k : text -> option R) : option R :=
  match s with
  | c :: s' => if p c then star p s' k else None
  | [] => None
  end.

Fixpoint atoms (l : list atom) (s : text) (k : text -> option R) : option R :=
  match l with
  | [] => k s
  | ALit x :: l' =>
      match lit x s with
      | Some s' => atoms l' s' k
      | None => None
      end
  | APlus c :: l' => plus (cmem c) s (fun s' => atoms l' s' k)
  | AStar c :: l' => star (cmem c) s (fun s' => atoms l' s' k)
  end.
End Backtrack.

(** pattern =
    [(  } catch \([^)]+\) \{\s*\n)(    console\.error\([^\n]+\n)(    res\.status\()] *)
Definition CATCH : text := Eval cbv in str "  } catch (".
Definition BRACE : text := Eval cbv in str ") {".
Definition CERR : text := Eval cbv in str "    console.error(".
Definition RSTAT : text := Eval cbv in str "    res.status(".
Definition rparen : char := 41%N.

Definition pattern1 : list atom :=
  [ALit CATCH; APlus (CNot rparen); ALit BRACE; AStar CSpace; ALit [nl]].
Definition pattern2 : list atom :=
  [ALit CERR; APlus (CNot nl); ALit [nl]].
Definition pattern3 : list atom :=
  [ALit RSTAT].

(** A match object: the three captured groups; [group0] is the whole span. *)
Record MatchObj : Type := mkMatch { group1 : text; group2 : text; group3 : text }.

Definition group0 (m : MatchObj) : text := group1 m ++ group2 m ++ group3 m.

(** What a group captured, from the text before it and the text after. *)
Definition captured (before after : text) : text :=
  firstn (length before - length after) before.

(** [pattern.match] at the front of [s]: the match object and the text after. *)
Definition match_pattern (s : text) : option (MatchObj * text) :=
  atoms pattern1 s (fun s1 =>
  atoms pattern2 s1 (fun s2 =>
  atoms pattern3 s2 (fun s3 =>
    Some (mkMatch (captured s s1) (captured s1 s2) (captured s2 s3), s3)))).

(** ** The replacement callback *)

Definition LOG_ROUTE : text := Eval cbv in str "logRouteError".
Definition LOG_CRITICAL : text := Eval cbv in str "logCriticalError".

(** The line the f-string adds: the doubled braces of the source print as
    single ones. *)
Definition INSERTED : text :=
  Eval cbv in str "    await logRouteError(error, req).catch(() => {});" ++ [nl].

Definition exempt (m : MatchObj) : bool :=
  contains LOG_ROUTE (group0 m) || contains LOG_CRITICAL (group0 m).

(** [replacement(match)]; the [nonlocal modifications] counter is threaded
    through as state. *)
Definition replacement (m : MatchObj) (modifications : nat) : text * nat :=
  let catch_line := group1 m in
  let console_line := group2 m in
  let res_line := group3 m in
  let full_match := group0 m in
  if exempt m then (group0 m, modifications)
  else (catch_line ++ console_line ++ INSERTED ++ res_line, S modifications).


(** * The scan terminates

    A match consumes at least its last literal, so the text left after a
    match is shorter: the recursion of the scan is well founded. *)

Lemma lit_length (l s s' : text) :
  lit l s = Some s' -> length s = length l + length s'.
Proof.
  revert s. induction l as [|x l IH]; intros s H.
  - injection H as ->. reflexivity.
  - destruct s as [|y s]; [discriminate|]. cbn [lit] in H.
    destruct (N.eqb x y); [|discriminate].
    cbn [length]. rewrite (IH s H). reflexivity.
Qed.

Lemma star_shorter {R : Type} (p : char -> bool) (k : text -> option R) s r :
  star p s k = Some r -> exists s', k s' = Some r /\ length s' <= length s.
Proof.
  induction s as [|c s IH]; cbn [star]; intros H.
  - exists []. auto.
  - assert (Hk : k (c :: s) = Some r -> exists s', k s' = Some r /\ length s' <= length (c :: s))
      by (intros Hk; exists (c :: s); auto).
    destruct (p c); [|auto].
    destruct (star p s k) as [r'|]; [|auto].
    destruct (IH H) as (s' & Hs' & Hl). exists s'. cbn [length]. auto.
Qed.

Lemma atoms_shorter {R : Type} (l : list atom) (k : text -> option R) s r :
  atoms l s k = Some r -> exists s', k s' = Some r /\ length s' <= length s.
Proof.
  revert s. induction l as [|[x|c|c] l IH]; cbn [atoms]; intros s H.
  - exists s. auto.
  - destruct (lit x s) as [s1|] eqn:Hl; [|discriminate].
    apply lit_length in Hl. destruct (IH _ H) as (s' & Hk & Hs').
    exists s'. split; [exact Hk|lia].
  - destruct s as [|y s]; [discriminate|]. cbn [plus] in H.
    destruct (cmem c y); [|discriminate].
    apply star_shorter in H as (s1 & H & Hs1).
    destruct (IH _ H) as (s' & Hk & Hs'). exists s'. cbn [length]. split; [exact Hk|lia].
  - apply star_shorter in H as (s1 & H & Hs1).
    destruct (IH _ H) as (s' & Hk & Hs'). exists s'. split; [exact Hk|lia].
Qed.

Lemma match_pattern_shorter (s : text) (m : MatchObj) (r : text) :
  match_pattern s = Some (m, r) -> length r < length s.
Proof.
  unfold match_pattern. intros H.
  apply atoms_shorter in H as (s1 & H & H1).
  apply atoms_shorter in H as (s2 & H & H2).
  unfold pattern3 in H. cbn [atoms] in H.
  destruct (lit RSTAT s2) as [s3|] eqn:H3; [|discriminate].
  apply lit_length in H3. injection H as _ <-.
  change (length RSTAT) with 15 in H3. lia.
Qed.

(** * [re.sub] and [re.finditer]

    [re.sub(pattern, repl, string)] with a callable [repl]: the string is
    scanned from the left; where the pattern matches, the callback's result
    replaces the span and the scan resumes after the span; elsewhere one
    character is copied.  The callback is a closure over mutable state, which
    is passed along from one call to the next. *)

Section ReSub.
Context {St : Type} (repl : MatchObj -> St -> text * St).

Equations? re_sub (s : text) (st : St) : text * St by wf (length s) lt :=
  re_sub [] st := ([], st);
  re_sub (c :: s') st with inspect (match_pattern (c :: s')) := {
    | exist _ (Some (m, rest)) e =>
        let o := repl m st in
        let t := re_sub rest (snd o) in
        (fst o ++ fst t, snd t);
    | exist _ None e =>
        let t := re_sub s' st in
        (c :: fst t, snd t) }.
Proof.
  apply match_pattern_shorter in e. exact e.
Qed.
End ReSub.

(** The successive matches [re.finditer] yields, each with its start offset. *)
Equations? finditer_from (pos : nat) (s : text) : list (nat * MatchObj) by wf (length s) lt :=
  finditer_from pos [] := [];
  finditer_from pos (c :: s') with inspect (match_pattern (c :: s')) := {
    | exist _ (Some (m, rest)) e =>
        (pos, m) :: finditer_from (pos + length (group0 m)) rest;
    | exist _ None e => finditer_from (S pos) s' }.
Proof.
  apply match_pattern_shorter in e. exact e.
Qed.

Definition finditer (s : text) : list (nat * MatchObj) := finditer_from 0 s.

(** * The script *)

(** What the script prints. *)
Inductive message : Type :=
| MsgUsage                                   (* Usage: python3 add-error-logging.py <filepath> *)
| MsgAdded (modifications : nat) (filepath : string)
| MsgNoChanges (filepath : string)
| MsgTotal (count : nat).

(** One run of [add_error_logging_to_file] on a file that was read as
    [content]: the text written back, if any, the line printed, and the
    value returned. *)
Record outcome : Type := mkOutcome {
  written : option text;
  printed : message;
  returned : nat
}.

(** [content = re.sub(pattern, replacement, content)], with the counter the
    closure leaves behind. *)
Definition transform (content : text) : text * nat :=
  re_sub replacement content 0.

Definition add_error_logging_to_file (filepath : string) (content : text) : outcome :=
  let original_content := content in
  let '(content, modifications) := transform content in
  if negb (text_eqb content original_content) then
    mkOutcome (Some content) (MsgAdded modifications filepath) modifications
  else
    mkOutcome None (MsgNoChanges filepath) 0.

(** What the run meets outside the program: the text [f.read()] returns for a
    path ([None] when opening or decoding the file raises), whether
    [open(path, 'w')] succeeds, and whether [sys.stdout] can encode the
    characters of the two summary lines that are not ASCII. *)
Record environment : Type := mkEnv {
  read_text : string -> option text;
  writable : string -> bool;
  stdout_encodes : bool
}.

Inductive io_event : Type :=
| EvRead (filepath : string)
| EvWrite (filepath : string) (content : text)
| EvPrint (msg : message).

Inductive exit_status : Type :=
| Exit (code : nat)        (* sys.exit(code), or falling off the end: code 0 *)
| Uncaught.                (* an uncaught exception ends the run with a traceback *)

(** The usage line and the total line are ASCII; the two summary lines start
    with a character outside ASCII. *)
Definition ascii_only (msg : message) : bool :=
  match msg with
  | MsgUsage | MsgTotal _ => true
  | MsgAdded _ _ | MsgNoChanges _ => false
  end.

Definition print_ok (env : environment) (msg : message) : bool :=
  ascii_only msg || stdout_encodes env.

(** The [__main__] block, on [sys.argv] and the environment: the events of the
    run in order, and how it ends.  Inside [add_error_logging_to_file] the
    file is read, then written when the text changed, then the summary is
    printed; an exception at any of these steps ends the run there. *)
Definition main (argv : list string) (env : environment) : list io_event * exit_status :=
  if length argv <? 2 then
    ([EvPrint MsgUsage], Exit 1)
  else
    let filepath := nth 1 argv EmptyString in
    match read_text env filepath with
    | None => ([], Uncaught)
    | Some content =>
        let o := add_error_logging_to_file filepath content in
        let count := returned o in
        match written o with
        | Some new =>
            if writable env filepath then
              if print_ok env (printed o) then
                ([EvRead filepath; EvWrite filepath new;
                  EvPrint (printed o); EvPrint (MsgTotal count)], Exit 0)
              else ([EvRead filepath; EvWrite filepath new], Uncaught)
            else ([EvRead filepath], Uncaught)
        | None =>
            if print_ok env (printed o) then
              ([EvRead filepath; EvPrint (printed o); EvPrint (MsgTotal count)], Exit 0)
            else ([EvRead filepath], Uncaught)
        end
    end.

(** * The vocabulary of the specification *)

(** ** The language of a sequence of atoms

    [lang l g]: the text [g] is an instance of the atoms [l] in sequence,
    whatever the order in which a matcher tries the repetitions. *)

Fixpoint lang (l : list atom) (g : text) : Prop :=
  match l with
  | [] => g = []
  | ALit x :: l' => exists g', g = x ++ g' /\ lang l' g'
  | APlus c :: l' =>
      exists a g', g = a ++ g' /\ a <> [] /\ forallb (cmem c) a = true /\ lang l' g'
  | AStar c :: l' =>
      exists a g', g = a ++ g' /\ forallb (cmem c) a = true /\ lang l' g'
  end.

(** A span of the three-line shape: each group is in the language of its
    part of the pattern. *)
Definition Shape (m : MatchObj) : Prop :=
  lang pattern1 (group1 m) /\ lang pattern2 (group2 m) /\ lang pattern3 (group3 m).

(** ** Substrings

    What Python's [in] decides on two [str]. *)

Definition Contains (needle hay : text) : Prop :=
  exists a b, hay = a ++ needle ++ b.

(** An occurrence the callback changes: one without an exemption marker. *)
Definition fresh (o : nat * MatchObj) : bool := negb (exempt (snd o)).

(** Spans in left-to-right order, none starting before the previous one
    ends. *)
Fixpoint non_overlapping (from : nat) (l : list (nat * MatchObj)) : Prop :=
  match l with
  | [] => True
  | o :: l' => from <= fst o /\ non_overlapping (fst o + length (group0 (snd o))) l'
  end.

(** ** Insertion of lines

    [Ins s o]: the text [o] is the text [s] with copies of the inserted line
    added, each right after a newline of [s] and in front of a
    [    res.status(] that [s] has there. *)
Inductive Ins : text -> text -> Prop :=
| Ins_nil : Ins [] []
| Ins_copy c s o : Ins s o -> Ins (c :: s) (c :: o)
| Ins_line s o : Ins s o -> lit RSTAT s <> None -> Ins (nl :: s) (nl :: INSERTED ++ o).

(** ** Lines *)

(** Python's [s.split('\n')]. *)
Fixpoint lines (s : text) : list text :=
  match s with
  | [] => [[]]
  | c :: s' =>
      if N.eqb c nl then [] :: lines s'
      else match lines s' with
           | l :: ls => (c :: l) :: ls
           | [] => [[c]]
           end
  end.

(** The statement the script adds, without its newline. *)
Definition STATEMENT : text :=
  Eval cbv in str "    await logRouteError(error, req).catch(() => {});".

(** [inserted_into x a b]: the list [b] is the list [a] with copies of [x]
    added; the elements of [a] are all there, unchanged and in order. *)
Inductive inserted_into {A : Type} (x : A) : list A -> list A -> Prop :=
| ii_nil : inserted_into x [] []
| ii_keep a l l' : inserted_into x l l' -> inserted_into x (a :: l) (a :: l')
| ii_add l l' : inserted_into x l l' -> inserted_into x l (x :: l').

(** ** Where an inserted line cannot be

    [clash v w]: the two texts differ at a position both have, so neither is
    the beginning of the other. *)
Fixpoint clash (v w : text) : bool :=
  match v, w with
  | a :: v', b :: w' => if N.eqb a b then clash v' w' else true
  | _, _ => false
  end.

(** [no_ins_at m]: after no newline of [m] does the rest of [m] run along the
    inserted line. *)
Fixpoint no_ins_at (m : text) : bool :=
  match m with
  | [] => true
  | c :: m' => (if N.eqb c nl then clash m' INSERTED else true) && no_ins_at m'
  end.

(** ** Stretches without a match *)

(** [Quiet u t]: in the text [u ++ t] the pattern matches at no position
    of [u]. *)
Fixpoint Quiet (u t : text) : Prop :=
  match u with
  | [] => True
  | c :: u' => match_pattern (u ++ t) = None /\ Quiet u' t
  end.

(** ** The file system after a run *)


Definition write_file (env : environment) (filepath : string) (content : text) : environment :=
  mkEnv (fun q => if String.eqb q filepath then Some content else read_text env q)
        (writable env) (stdout_encodes env).

(** The environment once the writes of a run are done. *)
Fixpoint apply_events (evs : list io_event) (env : environment) : environment :=
  match evs with
  | [] => env
  | EvWrite filepath content :: evs' => apply_events evs' (write_file env filepath content)
  | _ :: evs' => apply_events evs' env
  end.

(** A text file at one path, writable or not, and nothing else. *)
Definition one_file (filepath : string) (content : text) (can_write can_print : bool) : environment :=
  mkEnv (fun q => if String.eqb q filepath then Some content else None)
        (fun _ => can_write) can_print.

(** ** The occurrences, told without the matcher *)

(** The code points [\s] stands for. *)
Definition WHITE_SPACE : list char :=
  [9; 10; 11; 12; 13; 28; 29; 30; 31; 32; 133; 160; 5760;
   8192; 8193; 8194; 8195; 8196; 8197; 8198; 8199; 8200; 8201; 8202;
   8232; 8233; 8239; 8287; 12288]%N.

(** The three groups of a span of the three-line shape. *)
Definition ThreeLineShape (m : MatchObj) : Prop :=
  exists P ws X,
    m = mkMatch (str "  } catch (" ++ P ++ str ") {" ++ ws ++ [nl])
                (str "    console.error(" ++ X ++ [nl])
                (str "    res.status(") /\
    P <> [] /\ ~ In rparen P /\
    (forall c, In c ws -> In c WHITE_SPACE) /\
    X <> [] /\ ~ In nl X.

Definition StartsWithShape (s : text) : Prop :=
  exists m r, ThreeLineShape m /\ s = group0 m ++ r.

(** [LeftToRight pos s l]: [l] lists, with their offsets counted from [pos],
    the spans of the shape met when [s] is read from the left, a span being
    taken wherever one starts and the reading resumed after it. *)
Inductive LeftToRight : nat -> text -> list (nat * MatchObj) -> Prop :=
| ltr_end pos : LeftToRight pos [] []
| ltr_span pos s m rest l :
    ThreeLineShape m -> s = group0 m ++ rest ->
    LeftToRight (pos + length (group0 m)) rest l ->
    LeftToRight pos s ((pos, m) :: l)
| ltr_skip pos c s l :
    ~ StartsWithShape (c :: s) ->
    LeftToRight (S pos) s l ->
    LeftToRight pos (c :: s) l.

(** A span with neither exemption marker in it. *)
Definition MarkerFree (m : MatchObj) : Prop :=
  ~ Contains LOG_ROUTE (group0 m) /\ ~ Contains LOG_CRITICAL (group0 m).

(** [MarkerFreeCount l n]: [n] of the spans of [l] are marker free. *)
Inductive MarkerFreeCount : list (nat * MatchObj) -> nat -> Prop :=
| mfc_nil : MarkerFreeCount [] 0
| mfc_free pos m l n :
    MarkerFree m -> MarkerFreeCount l n -> MarkerFreeCount ((pos, m) :: l) (S n)
| mfc_marked pos m l n :
    Contains LOG_ROUTE (group0 m) \/ Contains LOG_CRITICAL (group0 m) ->
    MarkerFreeCount l n -> MarkerFreeCount ((pos, m) :: l) n.

(** ** Sample files *)

(** One catch block (the first example scenario). *)
Definition sample_catch : text :=
  str "  } catch (error) {" ++ [nl]
  ++ str "    console.error('x');" ++ [nl]
  ++ str "    res.status(500).send();" ++ [nl].

(** A catch block whose [console.error] line already names [logRouteError]. *)
Definition sample_exempt : text :=
  str "  } catch (error) {" ++ [nl]
  ++ str "    console.error('x', logRouteError);" ++ [nl]
  ++ str "    res.status(500).send();" ++ [nl].

(** A blank line between the catch header and the [console.error] line. *)
Definition sample_blank : text :=
  str "  } catch (error) {" ++ [nl]
  ++ [nl]
  ++ str "    console.error('x');" ++ [nl]
  ++ str "    res.status(500).send();" ++ [nl].

(** A catch header indented by four spaces. *)
Definition sample_indented : text :=
  str "    } catch (error) {" ++ [nl]
  ++ str "    console.error('x');" ++ [nl]
  ++ str "    res.status(500).send();" ++ [nl].

(** A header without the closing brace, after a comment that names one. *)
Definition sample_braceless : text :=
  str "// handler  } catch (" ++ [nl]
  ++ str "  catch (error) {" ++ [nl]
  ++ str "    console.error('x');" ++ [nl]
  ++ str "    res.status(500).send();" ++ [nl].

(** A header with one space before the brace, after the same comment. *)
Definition sample_onespace : text :=
  str "// handler  } catch (" ++ [nl]
  ++ str " } catch (error) {" ++ [nl]
  ++ str "    console.error('x');" ++ [nl]
  ++ str "    res.status(500).send();" ++ [nl].

Definition sample_match : MatchObj :=
  mkMatch (str "  } catch (error) {" ++ [nl])
          (str "    console.error('x');" ++ [nl])
          (str "    res.status(").

Definition sample_exempt_match : MatchObj :=
  mkMatch (str "  } catch (error) {" ++ [nl])
          (str "    console.error('x', logRouteError);" ++ [nl])
          (str "    res.status(").

Definition sample_blank_match : MatchObj :=
  mkMatch (str "  } catch (error) {" ++ [nl] ++ [nl])
          (str "    console.error('x');" ++ [nl])
          (str "    res.status(").

(** * Properties of the matcher *)

(** ** Literals *)

Lemma lit_app (l s : text) : lit l (l ++ s) = Some s.
Proof.
  induction l as [|x l IH]; simpl; [reflexivity|].
  rewrite N.eqb_refl. exact IH.
Qed.

Lemma lit_Some (l s s' : text) : lit l s = Some s' -> s = l ++ s'.
Proof.
  revert s. induction l as [|x l IH]; simpl; intros s H.
  - congruence.
  - destruct s as [|y s]; [discriminate|].
    destruct (N.eqb_spec x y) as [->|]; [|discriminate].
    f_equal. auto.
Qed.

Lemma text_eqb_eq (a b : text) : text_eqb a b = true <-> a = b.
Proof.
  revert b. induction a as [|x a IH]; destruct b as [|y b]; simpl;
    try (split; [discriminate|congruence]); [tauto|].
  rewrite andb_true_iff, N.eqb_eq, IH. split; [intros []|intros [= -> ->]]; subst; auto.
Qed.

Lemma captured_app (g s : text) : captured (g ++ s) s = g.
Proof.
  unfold captured. rewrite length_app.
  replace (length g + length s - length s) with (length g) by lia.
  rewrite firstn_app, Nat.sub_diag, firstn_all. simpl. apply app_nil_r.
Qed.

(** ** Greedy repetition *)

Section BacktrackFacts.
Context {R : Type}.
Implicit Types (k : text -> option R) (p : char -> bool).

(** What [star] returns was returned by the continuation on some split. *)
Lemma star_Some p k s r :
  star p s k = Some r ->
  exists a b, s = a ++ b /\ forallb p a = true /\ k b = Some r.
Proof.
  induction s as [|c s IH]; simpl; intros H.
  - exists [], []. auto.
  - destruct (p c) eqn:Hc.
    + destruct (star p s k) as [r'|] eqn:Hs.
      * destruct (IH H) as (a & b & -> & Ha & Hk).
        exists (c :: a), b. simpl. rewrite Hc. auto.
      * exists [], (c :: s). auto.
    + exists [], (c :: s). auto.
Qed.

(** [star] fails when the continuation fails on every split. *)
Lemma star_None p k s :
  (forall a b, s = a ++ b -> forallb p a = true -> k b = None) ->
  star p s k = None.
Proof.
  induction s as [|c s IH]; simpl; intros H.
  - apply (H [] []); reflexivity.
  - assert (H0 : k (c :: s) = None) by (apply (H []); reflexivity).
    destruct (p c) eqn:Hc; [|exact H0].
    rewrite IH; [exact H0|].
    intros a b -> Ha. apply (H (c :: a)); simpl; [reflexivity|].
    rewrite Hc. exact Ha.
Qed.

(** A run that ends at a character outside the class, before a
    continuation that accepts nothing starting inside the class: the whole
    run is taken. *)
Lemma star_run p k a c t :
  forallb p a = true -> p c = false ->
  (forall x u, p x = true -> k (x :: u) = None) ->
  star p (a ++ c :: t) k = k (c :: t).
Proof.
  intros Ha Hc Hk. induction a as [|x a IH]; simpl.
  - rewrite Hc. reflexivity.
  - simpl in Ha. apply andb_true_iff in Ha as [Hx Ha].
    rewrite Hx, (IH Ha).
    destruct (k (c :: t)); [reflexivity|]. apply Hk, Hx.
Qed.

Lemma plus_run p k a c t :
  a <> [] -> forallb p a = true -> p c = false ->
  (forall x u, p x = true -> k (x :: u) = None) ->
  plus p (a ++ c :: t) k = k (c :: t).
Proof.
  intros Hne Ha Hc Hk. destruct a as [|x a]; [congruence|].
  simpl in *. apply andb_true_iff in Ha as [Hx Ha].
  rewrite Hx. apply star_run; assumption.
Qed.

Lemma plus_Some p k s r :
  plus p s k = Some r ->
  exists a b, s = a ++ b /\ a <> [] /\ forallb p a = true /\ k b = Some r.
Proof.
  destruct s as [|c s]; simpl; [discriminate|].
  destruct (p c) eqn:Hc; [|discriminate].
  intros H. apply star_Some in H as (a & b & -> & Ha & Hk).
  exists (c :: a), b. simpl. rewrite Hc. repeat split; auto. discriminate.
Qed.
End BacktrackFacts.

(** ** The matcher is sound

    What it returns is a split of the text into three groups, each in the
    language of its part of the pattern. *)

Lemma atoms_Some {R : Type} (l : list atom) (k : text -> option R) s r :
  atoms l s k = Some r ->
  exists g s', s = g ++ s' /\ lang l g /\ k s' = Some r.
Proof.
  revert s. induction l as [|[x|c|c] l IH]; simpl; intros s H.
  - exists [], s. auto.
  - destruct (lit x s) as [s1|] eqn:Hl; [|discriminate].
    apply lit_Some in Hl as ->.
    destruct (IH _ H) as (g & s' & -> & Hg & Hk).
    exists (x ++ g), s'. rewrite <- app_assoc. eauto.
  - apply plus_Some in H as (a & b & -> & Hne & Ha & H).
    destruct (IH _ H) as (g & s' & -> & Hg & Hk).
    exists (a ++ g), s'. rewrite <- app_assoc. eauto 8.
  - apply star_Some in H as (a & b & -> & Ha & H).
    destruct (IH _ H) as (g & s' & -> & Hg & Hk).
    exists (a ++ g), s'. rewrite <- app_assoc. eauto 8.
Qed.

Lemma match_pattern_sound s m r :
  match_pattern s = Some (m, r) -> Shape m /\ s = group0 m ++ r.
Proof.
  unfold match_pattern. intros H.
  apply atoms_Some in H as (g1 & s1 & -> & H1 & H).
  apply atoms_Some in H as (g2 & s2 & -> & H2 & H).
  apply atoms_Some in H as (g3 & s3 & -> & H3 & H).
  rewrite !captured_app in H. injection H as <- <-.
  unfold Shape, group0. simpl. rewrite <- !app_assoc. auto.
Qed.

(** ** The pattern is deterministic

    Each repetition of the pattern is followed by a literal that pins down
    where it stops, so a text of the shape is matched, and with these groups. *)

Lemma is_space_not_letter (w : char) :
  is_space w = true -> (w =? 99)%N = false /\ (w =? 125)%N = false /\ (w =? 97)%N = false /\ (w =? 114)%N = false.
Proof.
  intros H.
  repeat split;
    match goal with |- (w =? ?x)%N = false =>
      destruct (N.eqb_spec w x) as [->|]; [discriminate H|reflexivity] end.
Qed.

Lemma lit_CERR_space (ws u : text) :
  forallb is_space ws = true -> lit CERR (ws ++ nl :: u) = None.
Proof.
  intros H. unfold CERR.
  do 4 (destruct ws as [|w ws]; [reflexivity|];
        cbn [lit app]; destruct (N.eqb_spec 32 w); [subst w|reflexivity];
        cbn [forallb] in H; apply andb_true_iff in H as [_ H]).
  destruct ws as [|w ws]; [reflexivity|].
  cbn [forallb] in H. apply andb_true_iff in H as [H _].
  apply is_space_not_letter in H as (H & _).
  cbn [lit app]. rewrite N.eqb_sym, H. reflexivity.
Qed.

Lemma star_space_run {R : Type} (K K1 : text -> option R) (ws t : text) :
  (forall u, K u = match lit [nl] u with Some s1 => K1 s1 | None => None end) ->
  (forall s1, lit CERR s1 = None -> K1 s1 = None) ->
  forallb is_space ws = true ->
  star is_space (ws ++ nl :: CERR ++ t) K = K1 (CERR ++ t).
Proof.
  intros HK HK1 Hws. induction ws as [|w ws IH].
  - simpl. rewrite !HK. simpl. destruct (K1 _); reflexivity.
  - simpl in Hws. apply andb_true_iff in Hws as [Hw Hws].
    cbn [app star]. rewrite Hw, (IH Hws).
    destruct (K1 (CERR ++ t)) as [r|]; [reflexivity|].
    rewrite HK. cbn [lit].
    destruct (N.eqb_spec nl w) as [<-|]; [|reflexivity].
    apply HK1, lit_CERR_space. assumption.
Qed.

Lemma Shape_inv (m : MatchObj) :
  Shape m <->
  exists P ws X,
    m = mkMatch (CATCH ++ P ++ BRACE ++ ws ++ [nl]) (CERR ++ X ++ [nl]) RSTAT /\
    P <> [] /\ forallb (cmem (CNot rparen)) P = true /\
    forallb is_space ws = true /\
    X <> [] /\ forallb (cmem (CNot nl)) X = true.
Proof.
  destruct m as [g1 g2 g3]. unfold Shape. cbn [group1 group2 group3]. split.
  - cbn [lang pattern1 pattern2 pattern3]. intros H.
    repeat match goal with
           | H : exists _, _ |- _ => destruct H
           | H : _ /\ _ |- _ => destruct H
           end; subst.
    match goal with
    | HP : forallb (cmem (CNot rparen)) ?P = true,
      HW : forallb (cmem CSpace) ?W = true,
      HX : forallb (cmem (CNot nl)) ?X = true |- _ => exists P, W, X
    end.
    rewrite !app_nil_r. repeat split; assumption.
  - intros (P & ws & X & [= -> -> ->] & HP & HP' & Hws & HX & HX').
    split; [|split].
    + exists (P ++ BRACE ++ ws ++ [nl]). split; [reflexivity|].
      exists P, (BRACE ++ ws ++ [nl]). do 3 (split; [auto|]).
      exists (ws ++ [nl]). split; [reflexivity|].
      exists ws, [nl]. do 2 (split; [auto|]).
      exists []. split; reflexivity.
    + exists (X ++ [nl]). split; [reflexivity|].
      exists X, [nl]. do 3 (split; [auto|]). exists []. split; reflexivity.
    + exists []. split; reflexivity.
Qed.

(** The scan of a text that starts like the shape, up to the end of the
    [console.error] line: all that is left to decide is whether
    [    res.status(] comes next. *)
Lemma match_pattern_front (P ws X u : text) :
  P <> [] -> forallb (cmem (CNot rparen)) P = true ->
  forallb is_space ws = true ->
  X <> [] -> forallb (cmem (CNot nl)) X = true ->
  match_pattern (CATCH ++ P ++ BRACE ++ ws ++ nl :: CERR ++ X ++ nl :: u)
  = match lit RSTAT u with
    | Some r => Some (mkMatch (CATCH ++ P ++ BRACE ++ ws ++ [nl]) (CERR ++ X ++ [nl]) RSTAT, r)
    | None => None
    end.
Proof.
  intros HP HP' Hws HX HX'.
  unfold match_pattern.
  set (s := CATCH ++ _).
  unfold pattern1 at 1. cbn [atoms]. unfold s at 1. rewrite lit_app.
  change (BRACE ++ ws ++ nl :: CERR ++ X ++ nl :: u)
    with (rparen :: (skipn 1 BRACE) ++ ws ++ nl :: CERR ++ X ++ nl :: u).
  rewrite plus_run; try assumption; try reflexivity.
  2:{ intros x v Hx. cbn [cmem] in Hx. apply negb_true_iff in Hx.
      cbn [atoms]. unfold BRACE. cbn [lit].
      rewrite N.eqb_sym in Hx. unfold rparen in Hx. rewrite Hx. reflexivity. }
  change (rparen :: skipn 1 BRACE ++ ws ++ nl :: CERR ++ X ++ nl :: u)
    with (BRACE ++ ws ++ nl :: CERR ++ X ++ nl :: u).
  rewrite lit_app.
  erewrite star_space_run; [|intros v; cbn [atoms]; reflexivity|intros s1 Hs1|assumption].
  2:{ unfold pattern2. cbn [atoms]. rewrite Hs1. reflexivity. }
  unfold pattern2 at 1. cbn [atoms]. rewrite lit_app.
  rewrite plus_run; try assumption; try reflexivity.
  2:{ intros x v Hx. cbn [cmem] in Hx. apply negb_true_iff in Hx.
      cbn [atoms lit]. rewrite N.eqb_sym in Hx. rewrite Hx. reflexivity. }
  cbn [lit]. rewrite N.eqb_refl.
  unfold pattern3. cbn [atoms].
  destruct (lit RSTAT u) as [r|] eqn:Hu; [|reflexivity].
  apply lit_Some in Hu. subst u.
  do 2 f_equal. f_equal.
  - transitivity (captured ((CATCH ++ P ++ BRACE ++ ws ++ [nl]) ++ CERR ++ X ++ [nl] ++ RSTAT ++ r)
                   (CERR ++ X ++ [nl] ++ RSTAT ++ r)); [|apply captured_app].
    f_equal. subst s. rewrite <- !app_assoc. reflexivity.
  - transitivity (captured ((CERR ++ X ++ [nl]) ++ RSTAT ++ r) (RSTAT ++ r));
      [|apply captured_app].
    f_equal. rewrite <- !app_assoc. reflexivity.
  - apply captured_app.
Qed.

Lemma match_pattern_shape (P ws X r : text) :
  P <> [] -> forallb (cmem (CNot rparen)) P = true ->
  forallb is_space ws = true ->
  X <> [] -> forallb (cmem (CNot nl)) X = true ->
  match_pattern (CATCH ++ P ++ BRACE ++ ws ++ nl :: CERR ++ X ++ nl :: RSTAT ++ r)
  = Some (mkMatch (CATCH ++ P ++ BRACE ++ ws ++ [nl]) (CERR ++ X ++ [nl]) RSTAT, r).
Proof.
  intros. rewrite match_pattern_front by assumption. rewrite lit_app. reflexivity.
Qed.

(** Without its literal start, or with an empty parameter, no match. *)
Lemma match_pattern_lit (s : text) : lit CATCH s = None -> match_pattern s = None.
Proof.
  intros H. unfold match_pattern, pattern1. cbn [atoms]. rewrite H. reflexivity.
Qed.

Lemma match_pattern_empty_param (u : text) : match_pattern (CATCH ++ rparen :: u) = None.
Proof. reflexivity. Qed.

Lemma match_pattern_complete (m : MatchObj) (r : text) :
  Shape m -> match_pattern (group0 m ++ r) = Some (m, r).
Proof.
  intros (P & ws & X & -> & HP & HP' & Hws & HX & HX')%Shape_inv.
  unfold group0. cbn [group1 group2 group3].
  rewrite <- (match_pattern_shape P ws X r) by assumption.
  f_equal. rewrite <- !app_assoc. reflexivity.
Qed.

Theorem match_pattern_spec (s : text) (m : MatchObj) (r : text) :
  match_pattern s = Some (m, r) <-> Shape m /\ s = group0 m ++ r.
Proof.
  split; [apply match_pattern_sound|].
  intros [H ->]. apply match_pattern_complete, H.
Qed.

Lemma Shape_group3 (m : MatchObj) : Shape m -> group3 m = RSTAT.
Proof.
  intros (P & ws & X & -> & _)%Shape_inv. reflexivity.
Qed.

(** * Unfolding the scan *)

Section ReSubFacts.
Context {St : Type} (repl : MatchObj -> St -> text * St).

Lemma re_sub_match (s : text) (st : St) m rest :
  match_pattern s = Some (m, rest) ->
  re_sub repl s st =
    (fst (repl m st) ++ fst (re_sub repl rest (snd (repl m st))),
     snd (re_sub repl rest (snd (repl m st)))).
Proof.
  intros H. destruct s as [|c s]; [discriminate H|].
  rewrite re_sub_equation_2.
  destruct (inspect (match_pattern (c :: s))) as [[[m' r']|] e];
    pose proof e as e'; rewrite H in e'; [|discriminate].
  injection e' as <- <-. reflexivity.
Qed.

Lemma re_sub_nomatch (c : char) (s : text) (st : St) :
  match_pattern (c :: s) = None ->
  re_sub repl (c :: s) st = (c :: fst (re_sub repl s st), snd (re_sub repl s st)).
Proof.
  intros H. rewrite re_sub_equation_2.
  destruct (inspect (match_pattern (c :: s))) as [[[m' r']|] e];
    pose proof e as e'; rewrite H in e'; [discriminate|].
  reflexivity.
Qed.
End ReSubFacts.

Lemma finditer_from_match (pos : nat) (s : text) m rest :
  match_pattern s = Some (m, rest) ->
  finditer_from pos s = (pos, m) :: finditer_from (pos + length (group0 m)) rest.
Proof.
  intros H. destruct s as [|c s]; [discriminate H|].
  rewrite finditer_from_equation_2.
  destruct (inspect (match_pattern (c :: s))) as [[[m' r']|] e];
    pose proof e as e'; rewrite H in e'; [|discriminate].
  injection e' as <- <-. reflexivity.
Qed.

Lemma finditer_from_nomatch (pos : nat) (c : char) (s : text) :
  match_pattern (c :: s) = None ->
  finditer_from pos (c :: s) = finditer_from (S pos) s.
Proof.
  intros H. rewrite finditer_from_equation_2.
  destruct (inspect (match_pattern (c :: s))) as [[[m' r']|] e];
    pose proof e as e'; rewrite H in e'; [discriminate|].
  reflexivity.
Qed.

(** Induction along the scan: the empty text, a match followed by the rest,
    or one unmatched character followed by the rest. *)
Lemma scan_ind (Q : text -> Prop) :
  Q [] ->
  (forall s m rest, match_pattern s = Some (m, rest) -> Q rest -> Q s) ->
  (forall c s, match_pattern (c :: s) = None -> Q s -> Q (c :: s)) ->
  forall s, Q s.
Proof.
  intros Hnil Hm Hc s.
  remember (length s) as n eqn:Hn. revert s Hn.
  induction n as [n IH] using lt_wf_ind. intros s ->.
  destruct (match_pattern s) as [[m rest]|] eqn:E.
  - apply (Hm s m rest E). apply (IH (length rest)); [|reflexivity].
    apply (match_pattern_shorter _ _ _ E).
  - destruct s as [|c s]; [exact Hnil|].
    apply (Hc c s E). apply (IH (length s)); [simpl; lia|reflexivity].
Qed.

(** * Insertion of lines *)

Lemma Ins_app_copy (a s o : text) : Ins s o -> Ins (a ++ s) (a ++ o).
Proof.
  intros H. induction a as [|c a IH]; [exact H|]. simpl. apply Ins_copy, IH.
Qed.

Lemma Ins_refl (s : text) : Ins s s.
Proof.
  rewrite <- (app_nil_r s). apply Ins_app_copy, Ins_nil.
Qed.

Lemma Ins_cons_inv (s : text) (c : char) (o' : text) :
  Ins s (c :: o') ->
  exists s0, s = c :: s0 /\
    (Ins s0 o' \/ (c = nl /\ exists o0, o' = INSERTED ++ o0 /\ Ins s0 o0)).
Proof.
  intros H. remember (c :: o') as o eqn:E.
  destruct H as [|c' s0 o0 H|s0 o0 H Hr].
  - discriminate.
  - injection E as E1 E2. subst. exists s0. split; [reflexivity|]. left. assumption.
  - injection E as E1 E2. subst. exists s0. split; [reflexivity|]. right.
    split; [reflexivity|]. exists o0. split; [reflexivity|assumption].
Qed.

Lemma clash_app_eq (v w x y : text) : v ++ x = w ++ y -> clash v w = false.
Proof.
  revert w. induction v as [|a v IH]; destruct w as [|b w]; simpl; try reflexivity.
  intros [= -> H]. rewrite N.eqb_refl. eauto.
Qed.

(** A span in which no inserted line can start, found at the front of the
    output, was at the front of the input. *)
Lemma Ins_span (m : text) : forall s o r',
  Ins s o -> o = m ++ r' -> no_ins_at m = true ->
  exists r, s = m ++ r /\ Ins r r'.
Proof.
  induction m as [|c m IH]; intros s o r' HI -> Hm.
  - exists s. auto.
  - simpl in Hm. apply andb_true_iff in Hm as [Hc Hm].
    apply Ins_cons_inv in HI as (s0 & -> & [HI0|(-> & o0 & E & HI0)]).
    + destruct (IH s0 _ r' HI0 eq_refl Hm) as (r & -> & Hr). exists r. auto.
    + rewrite N.eqb_refl in Hc. apply clash_app_eq in E. congruence.
Qed.

(** A span in which no inserted line can start ends before the first one. *)
Lemma Ins_before (m : text) : forall a b r',
  a ++ nl :: INSERTED ++ b = m ++ r' -> no_ins_at m = true ->
  exists a2, a ++ [nl] = m ++ a2 /\ a2 <> [].
Proof.
  induction m as [|c m IH]; intros a b r' E Hm.
  - exists (a ++ [nl]). split; [reflexivity|]. destruct a; discriminate.
  - simpl in Hm. apply andb_true_iff in Hm as [Hc Hm].
    destruct a as [|x a]; injection E as <- E.
    + rewrite N.eqb_refl in Hc.
      pose proof (clash_app_eq m INSERTED r' b (eq_sym E)). congruence.
    + destruct (IH a b r' E Hm) as (a2 & E2 & Hne).
      exists a2. cbn [app]. rewrite E2. auto.
Qed.

Lemma no_ins_at_nlfree (a b : text) :
  forallb (cmem (CNot nl)) a = true -> no_ins_at (a ++ b) = no_ins_at b.
Proof.
  induction a as [|c a IH]; simpl; [reflexivity|].
  intros [Hc Ha]%andb_true_iff. apply negb_true_iff in Hc.
  rewrite Hc. simpl. auto.
Qed.

Lemma clash_param (P t : text) :
  forallb (cmem (CNot rparen)) P = true ->
  clash (P ++ BRACE ++ t) INSERTED = true.
Proof.
  intros H. unfold INSERTED, BRACE.
  do 34 (destruct P as [|c P]; [reflexivity|];
         cbn [app clash]; cbn [forallb] in H; apply andb_true_iff in H as [_ H];
         match goal with |- (if N.eqb c ?x then _ else _) = _ =>
           destruct (N.eqb_spec c x) as [->|]; [|reflexivity] end).
  destruct P as [|c P]; [reflexivity|].
  cbn [app clash]. cbn [forallb cmem] in H.
  apply andb_true_iff in H as [H _]. apply negb_true_iff in H.
  unfold rparen in H. rewrite H. reflexivity.
Qed.

Lemma clash_space (ws t : text) :
  forallb is_space ws = true ->
  clash (ws ++ nl :: t) INSERTED = true.
Proof.
  intros H. unfold INSERTED.
  do 4 (destruct ws as [|c ws]; [reflexivity|];
        cbn [app clash]; cbn [forallb] in H; apply andb_true_iff in H as [_ H];
        match goal with |- (if N.eqb c ?x then _ else _) = _ =>
          destruct (N.eqb_spec c x) as [->|]; [|reflexivity] end).
  destruct ws as [|c ws]; [reflexivity|].
  cbn [app clash]. cbn [forallb] in H.
  apply andb_true_iff in H as [H _].
  apply is_space_not_letter in H as (_ & _ & H & _). rewrite H. reflexivity.
Qed.

Lemma no_ins_at_param (P t : text) :
  forallb (cmem (CNot rparen)) P = true ->
  no_ins_at (P ++ BRACE ++ t) = no_ins_at t.
Proof.
  induction P as [|c P IH]; [reflexivity|].
  intros H. cbn [app no_ins_at]. rewrite IH.
  2:{ cbn [forallb] in H. apply andb_true_iff in H as [_ H]. exact H. }
  cbn [forallb] in H. apply andb_true_iff in H as [_ H].
  destruct (N.eqb c nl); [|reflexivity].
  rewrite clash_param by assumption. reflexivity.
Qed.

Lemma no_ins_at_space (ws t : text) :
  forallb is_space ws = true ->
  no_ins_at (ws ++ nl :: CERR ++ t) = no_ins_at t.
Proof.
  induction ws as [|c ws IH].
  - reflexivity.
  - intros H. cbn [app no_ins_at]. cbn [forallb] in H.
    apply andb_true_iff in H as [_ H]. rewrite (IH H).
    destruct (N.eqb c nl); [|reflexivity].
    rewrite clash_space by assumption. reflexivity.
Qed.

(** No inserted line can start inside a span of the three-line shape. *)
Lemma Shape_no_ins_at (m : MatchObj) : Shape m -> no_ins_at (group0 m) = true.
Proof.
  intros (P & ws & X & -> & HP & HP' & Hws & HX & HX')%Shape_inv.
  unfold group0. cbn [group1 group2 group3]. rewrite <- !app_assoc.
  change (CATCH ++ P ++ BRACE ++ ws ++ [nl] ++ CERR ++ X ++ [nl] ++ RSTAT)
    with (CATCH ++ P ++ BRACE ++ ws ++ nl :: CERR ++ X ++ [nl] ++ RSTAT).
  rewrite (no_ins_at_nlfree CATCH) by reflexivity.
  rewrite no_ins_at_param, no_ins_at_space, no_ins_at_nlfree by assumption.
  reflexivity.
Qed.

(** A match in the output is a match in the input, with the same groups. *)
Lemma Ins_match (s o : text) (m : MatchObj) (r' : text) :
  Ins s o -> match_pattern o = Some (m, r') ->
  exists r, match_pattern s = Some (m, r) /\ Ins r r'.
Proof.
  intros HI [Hm ->]%match_pattern_sound.
  destruct (Ins_span _ _ _ _ HI eq_refl (Shape_no_ins_at m Hm)) as (r & -> & Hr).
  exists r. split; [apply match_pattern_complete, Hm|exact Hr].
Qed.

(** The callback only ever adds the line: the output is the input with
    lines inserted. *)
Lemma replacement_exempt (m : MatchObj) (st : nat) :
  exempt m = true -> replacement m st = (group0 m, st).
Proof. unfold replacement. intros ->. reflexivity. Qed.

Lemma replacement_fresh (m : MatchObj) (st : nat) :
  exempt m = false ->
  replacement m st = (group1 m ++ group2 m ++ INSERTED ++ group3 m, S st).
Proof. unfold replacement. intros ->. reflexivity. Qed.

Lemma Shape_group2 (m : MatchObj) :
  Shape m ->
  exists X, group2 m = CERR ++ X ++ [nl] /\ X <> [] /\ forallb (cmem (CNot nl)) X = true.
Proof.
  intros (P & ws & X & -> & _ & _ & _ & HX & HX')%Shape_inv. exists X. auto.
Qed.

Lemma Ins_replacement (m : MatchObj) (st : nat) (r o : text) :
  Shape m -> Ins r o -> Ins (group0 m ++ r) (fst (replacement m st) ++ o).
Proof.
  intros Hm Hr. destruct (exempt m) eqn:He.
  - rewrite replacement_exempt by assumption. apply Ins_app_copy, Hr.
  - rewrite replacement_fresh by assumption. cbn [fst]. unfold group0.
    destruct (Shape_group2 m Hm) as (X & -> & _).
    rewrite (Shape_group3 m Hm), <- !app_assoc.
    do 3 apply Ins_app_copy. cbn [app].
    apply Ins_line.
    + apply Ins_app_copy, Hr.
    + rewrite lit_app. discriminate.
Qed.

Lemma re_sub_Ins (s : text) : forall st, Ins s (fst (re_sub replacement s st)).
Proof.
  induction s as [|s m rest E IH|c s E IH] using scan_ind; intros st.
  - rewrite re_sub_equation_1. apply Ins_nil.
  - rewrite (re_sub_match _ _ _ _ _ E). cbn [fst].
    destruct (match_pattern_sound _ _ _ E) as [Hm ->].
    apply Ins_replacement; [exact Hm|apply IH].
  - rewrite (re_sub_nomatch _ _ _ _ E). cbn [fst]. apply Ins_copy, IH.
Qed.

(** * Stretches without a match *)

Lemma Quiet_app (a b t : text) : Quiet a (b ++ t) -> Quiet b t -> Quiet (a ++ b) t.
Proof.
  intros Ha Hb. induction a as [|c a IH]; [exact Hb|].
  destruct Ha as [H Ha]. cbn [app Quiet]. split; [|auto].
  rewrite <- app_assoc. exact H.
Qed.

Lemma re_sub_quiet {St : Type} (repl : MatchObj -> St -> text * St) (u t : text) (st : St) :
  Quiet u t ->
  re_sub repl (u ++ t) st = (u ++ fst (re_sub repl t st), snd (re_sub repl t st)).
Proof.
  induction u as [|c u IH]; intros H.
  - cbn [app]. destruct (re_sub repl t st). reflexivity.
  - destruct H as [H Hu]. cbn [app] in *.
    rewrite (re_sub_nomatch _ _ _ _ H), (IH Hu). reflexivity.
Qed.

Ltac quiet_lit :=
  repeat (split; [apply match_pattern_lit; reflexivity|]); exact I.

Lemma lit_before (l a : text) (c : char) (u v : text) :
  ~ In c l -> lit l (a ++ c :: u) = Some v ->
  exists a', a = l ++ a' /\ v = a' ++ c :: u.
Proof.
  revert a. induction l as [|x l IH]; intros a Hc H.
  - injection H as <-. exists a. auto.
  - destruct a as [|y a]; cbn [app lit] in H.
    + destruct (N.eqb_spec x c) as [->|]; [|discriminate].
      exfalso. apply Hc. left. reflexivity.
    + destruct (N.eqb_spec x y) as [->|]; [|discriminate].
      destruct (IH a) as (a' & -> & ->); [|exact H|exists a'; auto].
      intros Hin. apply Hc. right. exact Hin.
Qed.

Lemma nlfree_last (X u w : text) :
  forallb (cmem (CNot nl)) X = true -> X ++ [nl] = u ++ nl :: w -> w = [].
Proof.
  revert u. induction X as [|x X IH]; intros u HX E.
  - destruct u as [|y u]; [injection E as <-; reflexivity|].
    injection E as _ E. destruct u; discriminate.
  - cbn [forallb cmem] in HX. apply andb_true_iff in HX as [Hx HX].
    destruct u as [|y u]; injection E as -> E.
    + rewrite N.eqb_refl in Hx. discriminate.
    + eauto.
Qed.

Section Replaced.
Variables (P ws X t : text).
Hypothesis HP : forallb (cmem (CNot rparen)) P = true.
Hypothesis Hws : forallb is_space ws = true.
Hypothesis HXne : X <> [].
Hypothesis HX : forallb (cmem (CNot nl)) X = true.

(** What follows the parameter of the catch header once the line is in. *)
Let after_param : text :=
  BRACE ++ ws ++ nl :: CERR ++ X ++ nl :: INSERTED ++ RSTAT ++ t.

Lemma no_match_replaced (P' : text) :
  forallb (cmem (CNot rparen)) P' = true ->
  match_pattern (CATCH ++ P' ++ after_param) = None.
Proof.
  intros HP'. destruct P' as [|c P'].
  - apply match_pattern_empty_param.
  - unfold after_param. rewrite match_pattern_front; try assumption; [reflexivity|discriminate].
Qed.

Lemma Quiet_param (P' : text) :
  forallb (cmem (CNot rparen)) P' = true -> Quiet P' after_param.
Proof.
  induction P' as [|c P' IH]; intros HP'; [exact I|].
  split.
  2:{ apply IH. cbn [forallb] in HP'. apply andb_true_iff in HP' as [_ H]. exact H. }
  destruct (lit CATCH ((c :: P') ++ after_param)) as [v|] eqn:E;
    [|apply match_pattern_lit, E].
  unfold after_param in E.
  apply (lit_before CATCH (c :: P') rparen) in E as (P3 & E & _).
  2:{ unfold CATCH, rparen. cbn [In]. intros H.
      repeat (destruct H as [H|H]; [discriminate H|]). exact H. }
  rewrite E, <- app_assoc. apply no_match_replaced.
  rewrite E, forallb_app in HP'. apply andb_true_iff in HP' as [_ H]. exact H.
Qed.

Lemma lit_CATCH_space (ws' u : text) :
  forallb is_space ws' = true -> lit CATCH (ws' ++ nl :: CERR ++ u) = None.
Proof.
  intros H. unfold CATCH.
  do 2 (destruct ws' as [|w ws']; [reflexivity|];
        cbn [lit app]; destruct (N.eqb_spec 32 w); [subst w|reflexivity];
        cbn [forallb] in H; apply andb_true_iff in H as [_ H]).
  destruct ws' as [|w ws']; [reflexivity|].
  cbn [forallb] in H. apply andb_true_iff in H as [H _].
  apply is_space_not_letter in H as (_ & H & _).
  cbn [lit app]. rewrite N.eqb_sym, H. reflexivity.
Qed.

Lemma Quiet_space (ws' u : text) :
  forallb is_space ws' = true -> Quiet ws' (nl :: CERR ++ u).
Proof.
  induction ws' as [|w ws' IH]; intros H; [exact I|].
  split.
  - apply match_pattern_lit, lit_CATCH_space, H.
  - apply IH. cbn [forallb] in H. apply andb_true_iff in H as [_ H]. exact H.
Qed.

Lemma Quiet_console (X' : text) :
  forallb (cmem (CNot nl)) X' = true ->
  Quiet X' (nl :: INSERTED ++ RSTAT ++ t).
Proof.
  induction X' as [|x X' IH]; intros H; [exact I|].
  split.
  2:{ apply IH. cbn [forallb] in H. apply andb_true_iff in H as [_ H']. exact H'. }
  destruct (match_pattern _) as [[m r]|] eqn:E; [exfalso|reflexivity].
  apply match_pattern_sound in E as [Hm E].
  apply Ins_before in E as (a2 & E & _); [|apply Shape_no_ins_at, Hm].
  apply Shape_inv in Hm as (P2 & ws2 & X2 & -> & _).
  unfold group0 in E. cbn [group1 group2 group3] in E.
  rewrite <- !app_assoc in E.
  change (CATCH ++ P2 ++ BRACE ++ ws2 ++ [nl] ++ CERR ++ X2 ++ [nl] ++ RSTAT ++ a2)
    with (CATCH ++ P2 ++ BRACE ++ ws2 ++ nl :: CERR ++ X2 ++ [nl] ++ RSTAT ++ a2) in E.
  rewrite !(app_assoc _ _ (nl :: _)) in E.
  apply nlfree_last in E; [|exact H].
  destruct X2; discriminate E.
Qed.

(** Where a span was given the line, the pattern matches nowhere in it. *)
Lemma Quiet_shape :
  P <> [] ->
  Quiet ((CATCH ++ P ++ BRACE ++ ws ++ [nl]) ++ (CERR ++ X ++ [nl]) ++ INSERTED ++ RSTAT) t.
Proof.
  intros HPne.
  replace ((CATCH ++ P ++ BRACE ++ ws ++ [nl]) ++ (CERR ++ X ++ [nl]) ++ INSERTED ++ RSTAT)
    with (CATCH ++ P ++ BRACE ++ ws ++ [nl] ++ CERR ++ X ++ [nl] ++ INSERTED ++ RSTAT)
    by (rewrite <- !app_assoc; reflexivity).
  apply Quiet_app.
  { split.
    - rewrite <- !app_assoc. apply (no_match_replaced P HP).
    - rewrite <- !app_assoc. unfold CATCH. cbn [app Quiet]. quiet_lit. }
  apply Quiet_app.
  { rewrite <- !app_assoc. apply (Quiet_param P HP). }
  apply Quiet_app.
  { rewrite <- !app_assoc. unfold BRACE. cbn [app Quiet]. quiet_lit. }
  apply Quiet_app.
  { rewrite <- !app_assoc. apply Quiet_space, Hws. }
  apply Quiet_app.
  { rewrite <- !app_assoc. cbn [app Quiet]. quiet_lit. }
  apply Quiet_app.
  { rewrite <- !app_assoc. unfold CERR. cbn [app Quiet]. quiet_lit. }
  apply Quiet_app.
  { rewrite <- !app_assoc. apply Quiet_console, HX. }
  apply Quiet_app.
  { rewrite <- !app_assoc. cbn [app Quiet]. quiet_lit. }
  apply Quiet_app.
  { unfold INSERTED. cbn [app Quiet]. quiet_lit. }
  unfold RSTAT. cbn [app Quiet]. quiet_lit.
Qed.
End Replaced.

Lemma Quiet_replaced (m : MatchObj) (t : text) :
  Shape m -> Quiet (group1 m ++ group2 m ++ INSERTED ++ group3 m) t.
Proof.
  intros (P & ws & X & -> & HP & HP' & Hws & HX & HX')%Shape_inv.
  cbn [group1 group2 group3]. apply Quiet_shape; assumption.
Qed.

(** * The scan and its count *)

Lemma replacement_fst (m : MatchObj) (st st' : nat) :
  fst (replacement m st) = fst (replacement m st').
Proof. unfold replacement. destruct (exempt m); reflexivity. Qed.

Lemma replacement_snd (m : MatchObj) (st : nat) :
  snd (replacement m st) = st + (if exempt m then 0 else 1).
Proof. unfold replacement. destruct (exempt m); simpl; lia. Qed.

(** The text [re.sub] returns does not depend on the counter. *)
Lemma re_sub_fst (s : text) : forall st st',
  fst (re_sub replacement s st) = fst (re_sub replacement s st').
Proof.
  induction s as [|s m rest E IH|c s E IH] using scan_ind; intros st st'.
  - reflexivity.
  - rewrite !(re_sub_match _ _ _ _ _ E). cbn [fst].
    rewrite (replacement_fst m st st'). f_equal. apply IH.
  - rewrite !(re_sub_nomatch _ _ _ _ E). cbn [fst]. f_equal. apply IH.
Qed.

(** The counter ends at the number of occurrences without a marker. *)
Lemma re_sub_count (s : text) : forall st pos,
  snd (re_sub replacement s st) = st + length (filter fresh (finditer_from pos s)).
Proof.
  induction s as [|s m rest E IH|c s E IH] using scan_ind; intros st pos.
  - rewrite re_sub_equation_1, finditer_from_equation_1. simpl. lia.
  - rewrite (re_sub_match _ _ _ _ _ E), (finditer_from_match _ _ _ _ E). cbn [snd].
    rewrite (IH _ (pos + length (group0 m))), replacement_snd.
    cbn [filter]. unfold fresh at 2. cbn [snd].
    destruct (exempt m); simpl; lia.
  - rewrite (re_sub_nomatch _ _ _ _ E), (finditer_from_nomatch _ _ _ E). cbn [snd].
    apply IH.
Qed.

(** Each change makes the text longer by the inserted line. *)
Lemma re_sub_length (s : text) : forall st,
  length (fst (re_sub replacement s st))
  = length s + length INSERTED * (snd (re_sub replacement s st) - st)
  /\ st <= snd (re_sub replacement s st).
Proof.
  induction s as [|s m rest E IH|c s E IH] using scan_ind; intros st.
  - rewrite re_sub_equation_1. cbn [fst snd length]. lia.
  - rewrite (re_sub_match _ _ _ _ _ E). cbn [fst snd].
    destruct (match_pattern_sound _ _ _ E) as [_ ->].
    destruct (exempt m) eqn:He;
      [rewrite (replacement_exempt m st He)|rewrite (replacement_fresh m st He)];
      cbn [fst snd];
      match goal with |- context [re_sub replacement rest ?x] =>
        destruct (IH x) as [IH1 IH2] end;
      unfold group0; rewrite !length_app, IH1;
      change (length INSERTED) with 53 in *; lia.
  - rewrite (re_sub_nomatch _ _ _ _ E). cbn [fst snd length].
    destruct (IH st) as [IH1 IH2]. change (length INSERTED) with 53 in *. lia.
Qed.

(** Without a change the text is the same. *)
Lemma re_sub_same (s : text) : forall st,
  snd (re_sub replacement s st) = st -> fst (re_sub replacement s st) = s.
Proof.
  induction s as [|s m rest E IH|c s E IH] using scan_ind; intros st.
  - reflexivity.
  - rewrite (re_sub_match _ _ _ _ _ E). cbn [fst snd]. intros H.
    destruct (match_pattern_sound _ _ _ E) as [_ ->].
    pose proof (re_sub_length rest (snd (replacement m st))) as [_ Hle].
    rewrite replacement_snd in *.
    destruct (exempt m) eqn:He; [|lia].
    rewrite replacement_exempt by assumption. cbn [fst]. f_equal.
    apply IH. lia.
  - rewrite (re_sub_nomatch _ _ _ _ E). cbn [fst snd]. intros H. f_equal. auto.
Qed.

Lemma transform_count (content : text) :
  snd (transform content) = length (filter fresh (finditer content)).
Proof. unfold transform, finditer. rewrite (re_sub_count content 0 0). reflexivity. Qed.

Lemma transform_same_iff (content : text) :
  snd (transform content) = 0 <-> fst (transform content) = content.
Proof.
  unfold transform. split.
  - apply re_sub_same.
  - intros H. destruct (re_sub_length content 0) as [Hl _].
    rewrite H in Hl. change (length INSERTED) with 53 in Hl. lia.
Qed.

Lemma add_error_logging_to_file_eq (filepath : string) (content : text) :
  add_error_logging_to_file filepath content =
    if snd (transform content) =? 0
    then mkOutcome None (MsgNoChanges filepath) 0
    else mkOutcome (Some (fst (transform content)))
           (MsgAdded (snd (transform content)) filepath) (snd (transform content)).
Proof.
  unfold add_error_logging_to_file.
  pose proof (transform_same_iff content) as H.
  destruct (transform content) as [out n]. cbn [fst snd] in *.
  destruct (Nat.eqb_spec n 0) as [Hn|Hn].
  - apply H in Hn. apply text_eqb_eq in Hn. rewrite Hn. reflexivity.
  - destruct (text_eqb out content) eqn:Ht; [|reflexivity].
    apply text_eqb_eq, H in Ht. contradiction.
Qed.

(** ** Python's [in] *)

Lemma contains_spec (needle hay : text) :
  contains needle hay = true <-> Contains needle hay.
Proof.
  unfold Contains. induction hay as [|c hay IH].
  - simpl. destruct (lit needle []) as [v|] eqn:E.
    + split; [intros _|reflexivity]. apply lit_Some in E. exists [], v. exact E.
    + split; [discriminate|]. intros (a & b & H).
      destruct a; [|discriminate]. simpl in H.
      rewrite H, lit_app in E. discriminate.
  - cbn [contains]. destruct (lit needle (c :: hay)) as [v|] eqn:E.
    + split; [intros _|reflexivity]. apply lit_Some in E. exists [], v. exact E.
    + rewrite IH. split.
      * intros (a & b & ->). exists (c :: a), b. reflexivity.
      * intros (a & b & H). destruct a as [|x a].
        -- simpl in H. rewrite H, lit_app in E. discriminate.
        -- injection H as -> ->. eauto.
Qed.

Lemma exempt_spec (m : MatchObj) :
  exempt m = true <-> Contains LOG_ROUTE (group0 m) \/ Contains LOG_CRITICAL (group0 m).
Proof.
  unfold exempt. rewrite orb_true_iff, !contains_spec. reflexivity.
Qed.

(** * A second pass finds nothing to change *)

Lemma re_sub_idem (s : text) : forall st st0,
  re_sub replacement (fst (re_sub replacement s st)) st0
  = (fst (re_sub replacement s st), st0).
Proof.
  induction s as [|s m rest E IH|c s E IH] using scan_ind; intros st st0.
  - reflexivity.
  - rewrite (re_sub_match _ _ _ _ _ E). cbn [fst].
    destruct (match_pattern_sound _ _ _ E) as [Hm _].
    destruct (exempt m) eqn:He.
    + (* an exempt span is copied, matched again and copied again *)
      rewrite (replacement_exempt m st He). cbn [fst snd].
      rewrite (re_sub_match _ _ _ _ _ (match_pattern_complete m _ Hm)).
      rewrite (replacement_exempt m st0 He). cbn [fst snd].
      rewrite IH. reflexivity.
    + (* a span with the line in it has no match inside *)
      rewrite (replacement_fresh m st He). cbn [fst snd].
      rewrite (re_sub_quiet _ _ _ _ (Quiet_replaced m _ Hm)).
      rewrite IH. reflexivity.
  - rewrite (re_sub_nomatch _ _ _ _ E). cbn [fst].
    destruct (match_pattern (c :: fst (re_sub replacement s st))) as [[m r']|] eqn:E'.
    + exfalso.
      destruct (Ins_match (c :: s) _ m r' (Ins_copy c _ _ (re_sub_Ins s st)) E')
        as (r & Hr & _).
      congruence.
    + rewrite (re_sub_nomatch _ _ _ _ E'), IH. reflexivity.
Qed.

(** * The occurrences *)

Ltac split_all := repeat match goal with |- _ /\ _ => split end.

Lemma non_overlapping_weaken (l : list (nat * MatchObj)) (a b : nat) :
  a <= b -> non_overlapping b l -> non_overlapping a l.
Proof.
  destruct l as [|o l]; [auto|]. intros Hab [H1 H2]. split; [lia|exact H2].
Qed.

Lemma finditer_from_non_overlapping (s : text) : forall p0,
  non_overlapping p0 (finditer_from p0 s).
Proof.
  induction s as [|s m rest E IH|c s E IH] using scan_ind; intros p0.
  - rewrite finditer_from_equation_1. exact I.
  - rewrite (finditer_from_match _ _ _ _ E). split; [apply Nat.le_refl|apply IH].
  - rewrite (finditer_from_nomatch _ _ _ E).
    apply (non_overlapping_weaken _ p0 (S p0)); [lia|apply IH].
Qed.

(** Wherever the pattern matches, an occurrence of the scan covers the
    position. *)
Lemma finditer_from_covers (s : text) : forall p0 pre t,
  s = pre ++ t -> match_pattern t <> None ->
  exists pos m, In (pos, m) (finditer_from p0 s) /\
    pos <= p0 + length pre < pos + length (group0 m).
Proof.
  induction s as [|s m rest E IH|c s E IH] using scan_ind; intros p0 pre t Hs Ht.
  - destruct pre; [|discriminate]. simpl in Hs. subst t. exfalso. apply Ht. reflexivity.
  - rewrite (finditer_from_match _ _ _ _ E).
    pose proof (match_pattern_sound _ _ _ E) as [Hm Hs'].
    destruct (Nat.lt_ge_cases (length pre) (length (group0 m))) as [Hlt|Hge].
    + exists p0, m. split; [left; reflexivity|lia].
    + assert (exists l, pre = group0 m ++ l /\ rest = l ++ t) as (l & -> & Hr).
      { rewrite Hs' in Hs. apply app_eq_app in Hs as [l [[H1 H2]|[H1 H2]]].
        - assert (l = []) as ->.
          { apply (f_equal (@length _)) in H1. rewrite length_app in H1.
            destruct l; [reflexivity|simpl in H1; lia]. }
          exists []. rewrite app_nil_r in H1. rewrite app_nil_r. cbn [app] in *. auto.
        - exists l. auto. }
      destruct (IH (p0 + length (group0 m)) l t Hr Ht) as (pos & m' & Hin & Hpos).
      exists pos, m'. split; [right; exact Hin|]. rewrite length_app. lia.
  - rewrite (finditer_from_nomatch _ _ _ E).
    destruct pre as [|x pre]; simpl in Hs.
    + subst t. contradiction.
    + injection Hs as <- Hs.
      destruct (IH (S p0) pre t Hs Ht) as (pos & m' & Hin & Hpos).
      exists pos, m'. split; [exact Hin|]. simpl. lia.
Qed.

(** An occurrence of the scan splits the input and the output alike: what is
    before it with lines inserted, its replacement, and the rest
    transformed. *)
Lemma finditer_from_split (s : text) : forall p0 st pos m,
  In (pos, m) (finditer_from p0 s) ->
  exists pre post out_pre,
    s = pre ++ group0 m ++ post /\ pos = p0 + length pre /\ Shape m /\
    Ins pre out_pre /\
    fst (re_sub replacement s st)
    = out_pre ++ fst (replacement m 0) ++ fst (re_sub replacement post 0).
Proof.
  induction s as [|s m0 rest E IH|c s E IH] using scan_ind; intros p0 st pos m Hin.
  - rewrite finditer_from_equation_1 in Hin. destruct Hin.
  - rewrite (finditer_from_match _ _ _ _ E) in Hin.
    rewrite (re_sub_match _ _ _ _ _ E). cbn [fst].
    pose proof (match_pattern_sound _ _ _ E) as [Hm0 Hs].
    destruct Hin as [[= <- <-]|Hin].
    + exists [], rest, []. split_all; auto using Ins_nil.
      cbn [app]. rewrite (replacement_fst m0 st 0). f_equal. apply re_sub_fst.
    + destruct (IH _ (snd (replacement m0 st)) _ _ Hin)
        as (pre & post & out_pre & Hr & Hpos & Hm & Hpre & Hout).
      exists (group0 m0 ++ pre), post, (fst (replacement m0 st) ++ out_pre).
      split_all.
      * rewrite Hs, Hr, <- app_assoc. reflexivity.
      * rewrite length_app. lia.
      * apply Hm.
      * apply Ins_replacement; assumption.
      * rewrite Hout, <- app_assoc. reflexivity.
  - rewrite (finditer_from_nomatch _ _ _ E) in Hin.
    rewrite (re_sub_nomatch _ _ _ _ E). cbn [fst].
    destruct (IH _ st _ _ Hin) as (pre & post & out_pre & Hr & Hpos & Hm & Hpre & Hout).
    exists (c :: pre), post, (c :: out_pre). split_all.
    + rewrite Hr. reflexivity.
    + simpl. lia.
    + apply Hm.
    + apply Ins_copy, Hpre.
    + rewrite Hout. reflexivity.
Qed.

(** * Lines *)

Lemma Ins_lines (s o : text) :
  Ins s o ->
  exists l ls ls', lines s = l :: ls /\ lines o = l :: ls' /\ inserted_into STATEMENT ls ls'.
Proof.
  induction 1 as [|c s o H (l & ls & ls' & Hs & Ho & IH)|s o H (l & ls & ls' & Hs & Ho & IH) Hr].
  - exists [], [], []. repeat split. apply ii_nil.
  - cbn [lines]. rewrite Hs, Ho. destruct (N.eqb c nl).
    + exists [], (l :: ls), (l :: ls'). repeat split. apply ii_keep, IH.
    + exists (c :: l), ls, ls'. auto.
  - exists [], (l :: ls), (STATEMENT :: l :: ls'). repeat split.
    + cbn [lines]. rewrite N.eqb_refl, Hs. reflexivity.
    + change (lines (nl :: INSERTED ++ o)) with ([] :: STATEMENT :: lines o).
      rewrite Ho. reflexivity.
    + apply ii_add, ii_keep, IH.
Qed.

Lemma inserted_into_lines (s o : text) :
  Ins s o -> inserted_into STATEMENT (lines s) (lines o).
Proof.
  intros (l & ls & ls' & -> & -> & H)%Ins_lines. apply ii_keep, H.
Qed.

Lemma forallb_CNot (c : char) (l : text) :
  forallb (cmem (CNot c)) l = true <-> ~ In c l.
Proof.
  induction l as [|x l IH]; cbn [forallb cmem In].
  - split; [intros _ []|reflexivity].
  - rewrite andb_true_iff, IH, negb_true_iff, N.eqb_neq. intuition congruence.
Qed.

Lemma finditer_split (content : text) (pos : nat) (m : MatchObj) :
  In (pos, m) (finditer content) ->
  exists pre post out_pre,
    content = pre ++ group0 m ++ post /\ length pre = pos /\ Shape m /\
    Ins pre out_pre /\
    fst (transform content)
    = out_pre ++ fst (replacement m 0) ++ fst (transform post).
Proof.
  intros H. destruct (finditer_from_split content 0 0 pos m H)
    as (pre & post & out_pre & H1 & H2 & H3 & H4 & H5).
  exists pre, post, out_pre. split_all; auto.
Qed.

Lemma skipn_length_app {A : Type} (a b : list A) (n : nat) :
  skipn (length a + n) (a ++ b) = skipn n b.
Proof. induction a as [|x a IH]; [reflexivity|exact IH]. Qed.

Lemma skipn_exact {A : Type} (a b : list A) : skipn (length a) (a ++ b) = b.
Proof. induction a as [|x a IH]; [reflexivity|exact IH]. Qed.

Lemma finditer_match (content : text) (pos : nat) (m : MatchObj) :
  In (pos, m) (finditer content) ->
  match_pattern (skipn pos content)
  = Some (m, skipn (pos + length (group0 m)) content).
Proof.
  intros (pre & post & _ & -> & <- & Hm & _)%finditer_split.
  rewrite (skipn_length_app pre _ (length (group0 m))), !skipn_exact.
  apply match_pattern_complete, Hm.
Qed.

Lemma finditer_covers (content : text) (q : nat) :
  match_pattern (skipn q content) <> None ->
  exists pos m, In (pos, m) (finditer content) /\ pos <= q < pos + length (group0 m).
Proof.
  intros H.
  assert (Hq : q < length content).
  { destruct (Nat.lt_ge_cases q (length content)) as [Hlt|Hge]; [exact Hlt|].
    rewrite skipn_all2 in H by exact Hge. exfalso. apply H. reflexivity. }
  destruct (finditer_from_covers content 0 (firstn q content) (skipn q content))
    as (pos & m & Hin & Hpos); [symmetry; apply firstn_skipn|exact H|].
  exists pos, m. split; [exact Hin|].
  rewrite length_firstn, Nat.min_l in Hpos by lia. exact Hpos.
Qed.

(** * The scan against the shape told without the matcher *)

Lemma is_space_spec (c : char) : is_space c = true <-> In c WHITE_SPACE.
Proof.
  split.
  - unfold is_space. rewrite !orb_true_iff, !andb_true_iff, !N.leb_le, !N.eqb_eq.
    unfold WHITE_SPACE. cbn [In]. lia.
  - unfold WHITE_SPACE. cbn [In]. intros H.
    repeat (destruct H as [<-|H]; [reflexivity|]). destruct H.
Qed.

Lemma forallb_is_space (ws : text) :
  forallb is_space ws = true <-> (forall c, In c ws -> In c WHITE_SPACE).
Proof.
  rewrite forallb_forall. split; intros H c Hc; apply is_space_spec, H, Hc.
Qed.

Lemma ThreeLineShape_iff (m : MatchObj) : ThreeLineShape m <-> Shape m.
Proof.
  rewrite Shape_inv. unfold ThreeLineShape.
  split; intros (P & ws & X & Hm & HP & HP' & Hws & HX & HX');
    exists P, ws, X; split_all; try assumption.
  - apply forallb_CNot, HP'.
  - apply forallb_is_space, Hws.
  - apply forallb_CNot, HX'.
  - apply forallb_CNot, HP'.
  - apply forallb_is_space, Hws.
  - apply forallb_CNot, HX'.
Qed.

Lemma StartsWithShape_iff (s : text) :
  StartsWithShape s <-> match_pattern s <> None.
Proof.
  split.
  - intros (m & r & Hm & ->). apply ThreeLineShape_iff in Hm.
    rewrite (match_pattern_complete m r Hm). discriminate.
  - destruct (match_pattern s) as [[m r]|] eqn:E; [intros _|congruence].
    apply match_pattern_sound in E as [Hm ->].
    exists m, r. split; [apply ThreeLineShape_iff, Hm|reflexivity].
Qed.

Lemma finditer_from_LeftToRight (s : text) : forall pos,
  LeftToRight pos s (finditer_from pos s).
Proof.
  induction s as [|s m rest E IH|c s E IH] using scan_ind; intros pos.
  - rewrite finditer_from_equation_1. apply ltr_end.
  - rewrite (finditer_from_match _ _ _ _ E).
    destruct (match_pattern_sound _ _ _ E) as [Hm Hs].
    apply (ltr_span pos s m rest); [apply ThreeLineShape_iff, Hm|exact Hs|apply IH].
  - rewrite (finditer_from_nomatch _ _ _ E).
    apply ltr_skip; [|apply IH].
    rewrite StartsWithShape_iff. intros H. apply H, E.
Qed.

Lemma LeftToRight_finditer_from (pos : nat) (s : text) (l : list (nat * MatchObj)) :
  LeftToRight pos s l -> l = finditer_from pos s.
Proof.
  induction 1 as [pos|pos s m rest l Hm Hs H IH|pos c s l Hn H IH].
  - rewrite finditer_from_equation_1. reflexivity.
  - apply ThreeLineShape_iff in Hm. subst s.
    rewrite (finditer_from_match _ _ _ _ (match_pattern_complete m rest Hm)), IH.
    reflexivity.
  - rewrite StartsWithShape_iff in Hn.
    destruct (match_pattern (c :: s)) as [mr|] eqn:E; [exfalso; apply Hn; discriminate|].
    rewrite (finditer_from_nomatch _ _ _ E). exact IH.
Qed.

Lemma MarkerFree_iff (m : MatchObj) : MarkerFree m <-> exempt m = false.
Proof.
  unfold MarkerFree. rewrite <- not_true_iff_false, exempt_spec. tauto.
Qed.

Lemma MarkerFreeCount_filter (l : list (nat * MatchObj)) :
  MarkerFreeCount l (length (filter fresh l)).
Proof.
  induction l as [|[pos m] l IH]; [apply mfc_nil|].
  cbn [filter]. unfold fresh at 1. cbn [snd].
  destruct (exempt m) eqn:He; cbn [negb].
  - apply mfc_marked; [apply exempt_spec, He|exact IH].
  - cbn [length]. apply mfc_free; [apply MarkerFree_iff, He|exact IH].
Qed.

Lemma MarkerFreeCount_fun (l : list (nat * MatchObj)) (n n' : nat) :
  MarkerFreeCount l n -> MarkerFreeCount l n' -> n = n'.
Proof.
  intros H. revert n'.
  induction H as [|pos m l n Hm H IH|pos m l n Hm H IH]; intros n' H'.
  - inversion H'. reflexivity.
  - inversion H' as [|pos' m' l' k Hm' Hk|pos' m' l' k Hm' Hk]; subst.
    + f_equal. apply IH, Hk.
    + destruct Hm as [H1 H2]. destruct Hm'; contradiction.
  - inversion H' as [|pos' m' l' k Hm' Hk|pos' m' l' k Hm' Hk]; subst.
    + destruct Hm' as [H1 H2]. destruct Hm; contradiction.
    + apply IH, Hk.
Qed.

Lemma filter_fresh_none (l : list (nat * MatchObj)) :
  (forall pos m, In (pos, m) l -> exempt m = true) -> filter fresh l = [].
Proof.
  induction l as [|[pos m] l IH]; intros H; [reflexivity|].
  cbn [filter]. unfold fresh at 1. cbn [snd].
  rewrite (H pos m) by (left; reflexivity). cbn [negb].
  apply IH. intros pos' m' Hin. apply (H pos' m'). right. exact Hin.
Qed.

(** * The specification, claim by claim *)

(** C1 (idempotence).  For every file content, transforming the output of a
    first run changes nothing: [re.sub] returns the same text and leaves the
    counter at 0, so [add_error_logging_to_file] on the already-augmented text
    writes nothing and returns 0. *)
Theorem transform_idempotent (filepath : string) (content : text) :
  transform (fst (transform content)) = (fst (transform content), 0)
  /\ add_error_logging_to_file filepath (fst (transform content))
     = mkOutcome None (MsgNoChanges filepath) 0.
Proof.
  assert (H : transform (fst (transform content)) = (fst (transform content), 0))
    by apply re_sub_idem.
  split; [exact H|].
  rewrite add_error_logging_to_file_eq, H. reflexivity.
Qed.

(** C2 (insertion correctness).  At every occurrence the scan finds that
    contains neither [logRouteError] nor [logCriticalError], the output has
    the three groups of the span with exactly the line
    [    await logRouteError(error, req).catch(() => {});] and its newline
    between the [console.error] line (group 2) and [    res.status(]
    (group 3); before the span only such lines were added, and after it comes
    the transformed rest. *)
Theorem insertion_at_fresh_occurrence (content : text) (pos : nat) (m : MatchObj) :
  In (pos, m) (finditer content) ->
  ~ Contains LOG_ROUTE (group0 m) ->
  ~ Contains LOG_CRITICAL (group0 m) ->
  exists pre post out_pre X,
    content = pre ++ group1 m ++ group2 m ++ group3 m ++ post /\
    length pre = pos /\
    group2 m = CERR ++ X ++ [nl] /\ ~ In nl X /\
    group3 m = RSTAT /\
    Ins pre out_pre /\
    fst (transform content)
    = out_pre ++ group1 m ++ group2 m
        ++ (str "    await logRouteError(error, req).catch(() => {});" ++ [nl])
        ++ group3 m ++ fst (transform post).
Proof.
  intros Hin H1 H2.
  assert (He : exempt m = false).
  { destruct (exempt m) eqn:He; [|reflexivity].
    apply exempt_spec in He as [He|He]; contradiction. }
  destruct (finditer_split _ _ _ Hin) as (pre & post & out_pre & Hc & Hl & Hm & Hpre & Hout).
  destruct (Shape_group2 m Hm) as (X & HX & _ & HX').
  exists pre, post, out_pre, X. split_all; auto.
  - rewrite Hc. unfold group0. rewrite <- !app_assoc. reflexivity.
  - apply forallb_CNot, HX'.
  - apply Shape_group3, Hm.
  - rewrite Hout, (replacement_fresh m 0 He). cbn [fst].
    rewrite <- !app_assoc. reflexivity.
Qed.

(** C3 (exemption respect).  At every occurrence the scan finds whose span
    contains [logRouteError] or [logCriticalError], the span is in the output
    as it was in the input: nothing is inserted in it. *)
Theorem exempt_occurrence_untouched (content : text) (pos : nat) (m : MatchObj) :
  In (pos, m) (finditer content) ->
  Contains LOG_ROUTE (group0 m) \/ Contains LOG_CRITICAL (group0 m) ->
  exists pre post out_pre,
    content = pre ++ group0 m ++ post /\
    length pre = pos /\
    Ins pre out_pre /\
    fst (transform content) = out_pre ++ group0 m ++ fst (transform post).
Proof.
  intros Hin He%exempt_spec.
  destruct (finditer_split _ _ _ Hin) as (pre & post & out_pre & Hc & Hl & Hm & Hpre & Hout).
  exists pre, post, out_pre. split_all; auto.
  rewrite Hout, (replacement_exempt m 0 He). reflexivity.
Qed.

(** C4.  The count returned is 0 exactly when the transformed text equals the
    original, and the file is written exactly when the count is not 0 (with
    the transformed text). *)
Theorem count_zero_iff_unchanged (filepath : string) (content : text) :
  (returned (add_error_logging_to_file filepath content) = 0
   <-> fst (transform content) = content)
  /\ written (add_error_logging_to_file filepath content)
     = if returned (add_error_logging_to_file filepath content) =? 0
       then None else Some (fst (transform content)).
Proof.
  rewrite add_error_logging_to_file_eq.
  pose proof (transform_same_iff content) as H.
  destruct (Nat.eqb_spec (snd (transform content)) 0) as [Hn|Hn]; cbn [returned written].
  - split; [|reflexivity]. split; [intros _; apply H, Hn|reflexivity].
  - destruct (Nat.eqb_spec (snd (transform content)) 0); [contradiction|].
    split; [exact H|reflexivity].
Qed.

(** C5 (non-overlap counting).  Read from the left, taking a span of the
    three-line shape wherever one starts and resuming after it, a content
    has one list of occurrences; they do not overlap and every position
    where a span of the shape starts lies in one of them.  The count
    returned is the number of these occurrences that contain neither
    [logRouteError] nor [logCriticalError], and no other number.  (The list
    is the one [finditer] computes.) *)
Theorem count_is_fresh_occurrences (filepath : string) (content : text) :
  exists l,
    LeftToRight 0 content l
    /\ (forall l', LeftToRight 0 content l' -> l' = l)
    /\ non_overlapping 0 l
    /\ (forall q, StartsWithShape (skipn q content) ->
          exists pos m, In (pos, m) l /\ pos <= q < pos + length (group0 m))
    /\ MarkerFreeCount l (returned (add_error_logging_to_file filepath content))
    /\ (forall n, MarkerFreeCount l n ->
          n = returned (add_error_logging_to_file filepath content))
    /\ l = finditer content.
Proof.
  exists (finditer content).
  assert (Hc : MarkerFreeCount (finditer content)
                 (returned (add_error_logging_to_file filepath content))).
  { rewrite add_error_logging_to_file_eq, transform_count.
    destruct (Nat.eqb_spec (length (filter fresh (finditer content))) 0) as [E|E];
      cbn [returned]; [rewrite <- E|]; apply MarkerFreeCount_filter. }
  split_all.
  - apply finditer_from_LeftToRight.
  - intros l' H. apply LeftToRight_finditer_from, H.
  - apply finditer_from_non_overlapping.
  - intros q H. apply finditer_covers, StartsWithShape_iff, H.
  - exact Hc.
  - intros n H. apply (MarkerFreeCount_fun _ _ _ H Hc).
  - reflexivity.
Qed.

Example scenario_one :
  transform sample_catch
  = (str "  } catch (error) {" ++ [nl]
     ++ str "    console.error('x');" ++ [nl]
     ++ str "    await logRouteError(error, req).catch(() => {});" ++ [nl]
     ++ str "    res.status(500).send();" ++ [nl], 1).
Proof. vm_compute. reflexivity. Qed.

Example scenario_two :
  transform (fst (transform sample_catch)) = (fst (transform sample_catch), 0).
Proof. vm_compute. reflexivity. Qed.

Example scenario_three : transform sample_exempt = (sample_exempt, 0).
Proof. vm_compute. reflexivity. Qed.

Example scenario_four :
  add_error_logging_to_file "routes.js" (str "const x = 1;" ++ [nl])
  = mkOutcome None (MsgNoChanges "routes.js") 0.
Proof. vm_compute. reflexivity. Qed.

Lemma insertion_at_fresh_occurrence_witness :
  In (0, sample_match) (finditer sample_catch) /\
  exists pre post out_pre X,
    sample_catch
    = pre ++ group1 sample_match ++ group2 sample_match ++ group3 sample_match ++ post /\
    length pre = 0 /\
    group2 sample_match = CERR ++ X ++ [nl] /\ ~ In nl X /\
    group3 sample_match = RSTAT /\
    Ins pre out_pre /\
    fst (transform sample_catch)
    = out_pre ++ group1 sample_match ++ group2 sample_match
        ++ (str "    await logRouteError(error, req).catch(() => {});" ++ [nl])
        ++ group3 sample_match ++ fst (transform post).
Proof.
  assert (H : In (0, sample_match) (finditer sample_catch))
    by (vm_compute; left; reflexivity).
  split; [exact H|].
  apply (insertion_at_fresh_occurrence sample_catch 0 sample_match H).
  - intros C. apply contains_spec in C. vm_compute in C. discriminate C.
  - intros C. apply contains_spec in C. vm_compute in C. discriminate C.
Defined.

Lemma exempt_occurrence_untouched_witness :
  In (0, sample_exempt_match) (finditer sample_exempt) /\
  exists pre post out_pre,
    sample_exempt = pre ++ group0 sample_exempt_match ++ post /\
    length pre = 0 /\
    Ins pre out_pre /\
    fst (transform sample_exempt)
    = out_pre ++ group0 sample_exempt_match ++ fst (transform post).
Proof.
  assert (H : In (0, sample_exempt_match) (finditer sample_exempt))
    by (vm_compute; left; reflexivity).
  split; [exact H|].
  apply (exempt_occurrence_untouched sample_exempt 0 sample_exempt_match H).
  left. apply contains_spec. vm_compute. reflexivity.
Defined.

(** C6 as stated fails: with a blank line between the catch header and the
    [console.error] line the span is still matched and the line inserted. *)
Lemma blank_line_is_matched :
  lines sample_blank
  = [str "  } catch (error) {"; [];
     str "    console.error('x');";
     str "    res.status(500).send();"; []]
  /\ lines (fst (transform sample_blank))
     = [str "  } catch (error) {"; [];
        str "    console.error('x');";
        str "    await logRouteError(error, req).catch(() => {});";
        str "    res.status(500).send();"; []]
  /\ returned (add_error_logging_to_file "routes.js" sample_blank) = 1.
Proof. vm_compute. repeat split. Qed.

(** C6 (adjacency), amended.  Every occurrence the scan finds is, in the
    input at its offset, [  } catch (], a parameter, [) {], then white space
    only (which may hold blank lines, but no comment or other text) up to a
    newline, then at once the [console.error] line (no newline inside it) and
    its newline, then at once [    res.status(]. *)
Theorem occurrence_adjacency (content : text) (pos : nat) (m : MatchObj) :
  In (pos, m) (finditer content) ->
  exists pre post P ws X,
    content = pre ++ (CATCH ++ P ++ BRACE ++ ws ++ [nl]) ++ (CERR ++ X ++ [nl]) ++ RSTAT ++ post /\
    length pre = pos /\
    m = mkMatch (CATCH ++ P ++ BRACE ++ ws ++ [nl]) (CERR ++ X ++ [nl]) RSTAT /\
    forallb is_space ws = true /\
    X <> [] /\ ~ In nl X.
Proof.
  intros (pre & post & _ & Hc & Hl & Hm & _)%finditer_split.
  apply Shape_inv in Hm as (P & ws & X & -> & _ & _ & Hws & HX & HX').
  exists pre, post, P, ws, X. split_all; auto.
  - rewrite Hc. unfold group0. cbn [group1 group2 group3].
    rewrite <- !app_assoc. reflexivity.
  - apply forallb_CNot, HX'.
Qed.

Lemma occurrence_adjacency_witness :
  In (0, sample_blank_match) (finditer sample_blank) /\
  exists pre post P ws X,
    sample_blank
    = pre ++ (CATCH ++ P ++ BRACE ++ ws ++ [nl]) ++ (CERR ++ X ++ [nl]) ++ RSTAT ++ post /\
    length pre = 0 /\
    sample_blank_match = mkMatch (CATCH ++ P ++ BRACE ++ ws ++ [nl]) (CERR ++ X ++ [nl]) RSTAT /\
    forallb is_space ws = true /\
    X <> [] /\ ~ In nl X.
Proof.
  assert (H : In (0, sample_blank_match) (finditer sample_blank))
    by (vm_compute; left; reflexivity).
  split; [exact H|].
  apply (occurrence_adjacency sample_blank 0 sample_blank_match H).
Defined.

(** C7 (no-op preservation).  When the pattern matches at no position of the
    content, or every occurrence of the scan is exempt, the transformed text
    is the content, the count is 0 and nothing is written. *)
Theorem noop_preservation (filepath : string) (content : text) :
  (forall q, match_pattern (skipn q content) = None)
  \/ (forall pos m, In (pos, m) (finditer content) -> exempt m = true) ->
  fst (transform content) = content
  /\ add_error_logging_to_file filepath content
     = mkOutcome None (MsgNoChanges filepath) 0.
Proof.
  intros H.
  assert (He : forall pos m, In (pos, m) (finditer content) -> exempt m = true).
  { destruct H as [H|H]; [|exact H].
    intros pos m Hin. apply finditer_match in Hin. rewrite H in Hin. discriminate. }
  assert (Hn : snd (transform content) = 0).
  { rewrite transform_count. clear H. revert He.
    induction (finditer content) as [|[pos m] l IH]; intros He; [reflexivity|].
    cbn [filter]. unfold fresh at 1. cbn [snd].
    rewrite (He pos m) by (left; reflexivity). cbn [negb].
    apply IH. intros pos' m' Hin. apply (He pos' m'). right. exact Hin. }
  split; [apply transform_same_iff, Hn|].
  rewrite add_error_logging_to_file_eq, Hn. reflexivity.
Qed.

Lemma noop_preservation_witness :
  fst (transform sample_exempt) = sample_exempt
  /\ add_error_logging_to_file "routes.js" sample_exempt
     = mkOutcome None (MsgNoChanges "routes.js") 0.
Proof.
  apply (noop_preservation "routes.js" sample_exempt).
  right. intros pos m H. vm_compute in H.
  destruct H as [H|[]]. injection H as _ <-. vm_compute. reflexivity.
Defined.

(** C8 (insertion only).  The lines of the output are the lines of the input,
    unchanged and in their order, with copies of the inserted statement
    added; character by character, the output is the input with inserted
    lines. *)
Theorem insertion_only (content : text) :
  inserted_into STATEMENT (lines content) (lines (fst (transform content)))
  /\ Ins content (fst (transform content)).
Proof.
  pose proof (re_sub_Ins content 0) as H.
  split; [apply inserted_into_lines, H|exact H].
Qed.

(** C9 (usage error).  Run without a path argument, the program prints the
    usage line and exits with status 1; it reads and writes no file. *)
Theorem usage_error (argv : list string) (env : environment) :
  length argv < 2 -> main argv env = ([EvPrint MsgUsage], Exit 1).
Proof.
  intros H. unfold main. apply Nat.ltb_lt in H. rewrite H. reflexivity.
Qed.

Lemma usage_error_witness :
  length ["add-error-logging.py"%string] < 2
  /\ main ["add-error-logging.py"%string] (one_file "routes.js" sample_catch true true)
     = ([EvPrint MsgUsage], Exit 1).
Proof.
  split; [simpl; lia|]. apply usage_error. simpl. lia.
Defined.

(** C10 as stated fails: a catch header indented by four spaces is
    augmented, since the pattern is not tied to the start of a line. *)
Lemma deeper_indentation_is_matched :
  lines sample_indented
  = [str "    } catch (error) {";
     str "    console.error('x');";
     str "    res.status(500).send();"; []]
  /\ lines (fst (transform sample_indented))
     = [str "    } catch (error) {";
        str "    console.error('x');";
        str "    await logRouteError(error, req).catch(() => {});";
        str "    res.status(500).send();"; []]
  /\ returned (add_error_logging_to_file "routes.js" sample_indented) = 1.
Proof. vm_compute. repeat split. Qed.

(** The rest of C10 fails too: [[^)]+] runs over newlines, so after a comment
    that holds [  } catch (] a header line without the closing brace, or with
    one space before it, is part of the parameter and its block is
    augmented. *)
Lemma braceless_header_is_augmented :
  lines (fst (transform sample_braceless))
  = [str "// handler  } catch (";
     str "  catch (error) {";
     str "    console.error('x');";
     str "    await logRouteError(error, req).catch(() => {});";
     str "    res.status(500).send();"; []]
  /\ returned (add_error_logging_to_file "routes.js" sample_braceless) = 1
  /\ lines (fst (transform sample_onespace))
     = [str "// handler  } catch (";
        str " } catch (error) {";
        str "    console.error('x');";
        str "    await logRouteError(error, req).catch(() => {});";
        str "    res.status(500).send();"; []]
  /\ returned (add_error_logging_to_file "routes.js" sample_onespace) = 1.
Proof. vm_compute. repeat split. Qed.

(** C10 (shape of the header), amended.  Every occurrence the scan finds
    starts, at its offset in the input (which need not be the start of a
    line), with two spaces, a closing brace, [ catch (], a non-empty parameter
    without [)], then [) {], white space and a newline: that is its first
    group.  A content in which the eleven characters [  } catch (] occur
    nowhere is returned unchanged with count 0. *)
Theorem occurrence_header_shape (content : text) :
  (forall pos m, In (pos, m) (finditer content) ->
     exists pre rest P ws,
       content = pre ++ str "  } catch (" ++ P ++ str ") {" ++ ws ++ nl :: rest /\
       length pre = pos /\
       group1 m = str "  } catch (" ++ P ++ str ") {" ++ ws ++ [nl] /\
       P <> [] /\ ~ In rparen P /\
       forallb is_space ws = true)
  /\ (~ Contains (str "  } catch (") content -> transform content = (content, 0)).
Proof.
  assert (Hshape : forall pos m, In (pos, m) (finditer content) ->
     exists pre rest P ws,
       content = pre ++ str "  } catch (" ++ P ++ str ") {" ++ ws ++ nl :: rest /\
       length pre = pos /\
       group1 m = str "  } catch (" ++ P ++ str ") {" ++ ws ++ [nl] /\
       P <> [] /\ ~ In rparen P /\
       forallb is_space ws = true).
  { intros pos m (pre & post & _ & Hc & Hl & Hm & _)%finditer_split.
    apply Shape_inv in Hm as (P & ws & X & -> & HP & HP' & Hws & _).
    exists pre, (CERR ++ X ++ [nl] ++ RSTAT ++ post), P, ws. split_all; auto.
    - rewrite Hc. unfold group0. cbn [group1 group2 group3].
      rewrite <- !app_assoc. reflexivity.
    - apply forallb_CNot, HP'. }
  split; [exact Hshape|].
  intros Hno.
  assert (Hnone : forall pos m, In (pos, m) (finditer content) -> exempt m = true).
  { intros pos m Hin. exfalso.
    destruct (Hshape pos m Hin) as (pre & rest & P & ws & Hc & _).
    apply Hno. exists pre, (P ++ str ") {" ++ ws ++ nl :: rest). exact Hc. }
  assert (Hn : snd (transform content) = 0).
  { rewrite transform_count, (filter_fresh_none _ Hnone). reflexivity. }
  pose proof (proj1 (transform_same_iff content) Hn) as Hs.
  destruct (transform content) as [out n]. cbn [fst snd] in *. congruence.
Qed.

Lemma occurrence_header_shape_witness :
  In (2, sample_match) (finditer sample_indented) /\
  exists pre rest P ws,
    sample_indented = pre ++ str "  } catch (" ++ P ++ str ") {" ++ ws ++ nl :: rest /\
    length pre = 2 /\
    group1 sample_match = str "  } catch (" ++ P ++ str ") {" ++ ws ++ [nl] /\
    P <> [] /\ ~ In rparen P /\
    forallb is_space ws = true.
Proof.
  assert (H : In (2, sample_match) (finditer sample_indented))
    by (vm_compute; left; reflexivity).
  split; [exact H|].
  apply (proj1 (occurrence_header_shape sample_indented) 2 sample_match H).
Defined.

(** * Further properties of the script *)

Lemma returned_eq (filepath : string) (content : text) :
  returned (add_error_logging_to_file filepath content) = snd (transform content).
Proof.
  rewrite add_error_logging_to_file_eq.
  destruct (Nat.eqb_spec (snd (transform content)) 0) as [->|]; reflexivity.
Qed.

Lemma Shape_length (m : MatchObj) : Shape m -> 51 <= length (group0 m).
Proof.
  intros (P & ws & X & -> & HP & _ & _ & HX & _)%Shape_inv.
  unfold group0. cbn [group1 group2 group3]. rewrite !length_app.
  change (length CATCH) with 11. change (length BRACE) with 3.
  change (length CERR) with 18. change (length RSTAT) with 15.
  destruct P; [congruence|]. destruct X; [congruence|]. cbn [length]. lia.
Qed.

Lemma finditer_from_bound (s : text) : forall p,
  51 * length (finditer_from p s) <= length s.
Proof.
  induction s as [|s m rest E IH|c s E IH] using scan_ind; intros p.
  - rewrite finditer_from_equation_1. simpl. lia.
  - rewrite (finditer_from_match _ _ _ _ E).
    destruct (match_pattern_sound _ _ _ E) as [Hm ->].
    pose proof (Shape_length m Hm) as H. rewrite length_app.
    pose proof (IH (p + length (group0 m))) as H0.
    remember (finditer_from (p + length (group0 m)) rest) as l.
    change (length ((p, m) :: l)) with (S (length l)).
    lia.
  - rewrite (finditer_from_nomatch _ _ _ E).
    change (length (c :: s)) with (S (length s)).
    pose proof (IH (S p)). lia.
Qed.

Lemma lines_cons (s : text) : exists l ls, lines s = l :: ls.
Proof.
  induction s as [|c s (l & ls & IH)]; cbn [lines]; [eauto|].
  destruct (N.eqb c nl); [eauto|]. rewrite IH. eauto.
Qed.

Lemma lines_length_app (a b : text) :
  length (lines (a ++ b)) + 1 = length (lines a) + length (lines b).
Proof.
  induction a as [|c a IH]; cbn [app lines].
  - cbn [length]. lia.
  - destruct (N.eqb c nl).
    + cbn [length]. lia.
    + destruct (lines_cons (a ++ b)) as (l & ls & E).
      destruct (lines_cons a) as (l' & ls' & E').
      rewrite E, E' in *. cbn [length] in *. lia.
Qed.

Lemma re_sub_lines (s : text) : forall st,
  length (lines (fst (re_sub replacement s st))) + st
  = length (lines s) + snd (re_sub replacement s st).
Proof.
  induction s as [|s m rest E IH|c s E IH] using scan_ind; intros st.
  - rewrite re_sub_equation_1. cbn [fst snd]. lia.
  - rewrite (re_sub_match _ _ _ _ _ E). cbn [fst snd].
    destruct (match_pattern_sound _ _ _ E) as [_ ->].
    pose proof (lines_length_app (group0 m) rest) as H0.
    destruct (exempt m) eqn:He;
      [rewrite (replacement_exempt m st He)|rewrite (replacement_fresh m st He)];
      cbn [fst snd];
      match goal with |- context [re_sub replacement rest ?x] =>
        pose proof (IH x) as IH1 end;
      match goal with |- context [lines (?a ++ fst ?t)] =>
        pose proof (lines_length_app a (fst t)) as H1 end.
    + lia.
    + unfold group0 in *.
      pose proof (lines_length_app (group1 m) (group2 m ++ INSERTED ++ group3 m)) as A1.
      pose proof (lines_length_app (group2 m) (INSERTED ++ group3 m)) as A2.
      pose proof (lines_length_app INSERTED (group3 m)) as A3.
      pose proof (lines_length_app (group1 m) (group2 m ++ group3 m)) as B1.
      pose proof (lines_length_app (group2 m) (group3 m)) as B2.
      change (length (lines INSERTED)) with 2 in A3. lia.
  - rewrite (re_sub_nomatch _ _ _ _ E). cbn [fst snd].
    pose proof (IH st) as IH1.
    pose proof (lines_length_app [c] s) as A1.
    pose proof (lines_length_app [c] (fst (re_sub replacement s st))) as A2.
    cbn [app] in A1, A2. lia.
Qed.



Lemma inserted_into_filter (x : text) (l l' : list text) :
  inserted_into x l l' -> ~ In x l ->
  filter (fun y => negb (text_eqb y x)) l' = l.
Proof.
  induction 1 as [|a l l' H IH|l l' H IH]; intros Hx.
  - reflexivity.
  - cbn [filter]. destruct (text_eqb a x) eqn:Ea.
    + apply text_eqb_eq in Ea. exfalso. apply Hx. left. exact Ea.
    + cbn [negb]. f_equal. apply IH. intros Hin. apply Hx. right. exact Hin.
  - cbn [filter]. replace (text_eqb x x) with true by (symmetry; apply text_eqb_eq; reflexivity).
    cbn [negb]. apply IH, Hx.
Qed.

Lemma main_run (argv : list string) (env : environment) (content : text) :
  2 <= length argv ->
  read_text env (nth 1 argv EmptyString) = Some content ->
  writable env (nth 1 argv EmptyString) = true ->
  stdout_encodes env = true ->
  main argv env =
    (EvRead (nth 1 argv EmptyString)
       :: (if snd (transform content) =? 0 then []
           else [EvWrite (nth 1 argv EmptyString) (fst (transform content))])
       ++ [EvPrint (if snd (transform content) =? 0
                    then MsgNoChanges (nth 1 argv EmptyString)
                    else MsgAdded (snd (transform content)) (nth 1 argv EmptyString));
           EvPrint (MsgTotal (snd (transform content)))],
     Exit 0).
Proof.
  intros Hl Hfs Hw Hp. unfold main, print_ok.
  destruct (Nat.ltb_spec (length argv) 2) as [?|_]; [lia|].
  rewrite Hfs, Hw, Hp, add_error_logging_to_file_eq.
  destruct (Nat.eqb_spec (snd (transform content)) 0) as [->|]; reflexivity.
Qed.

(** X1.  Run with a path to a file that can be read and written, on a
    standard output that can encode the summary line, the program reads the
    file, writes the transformed text back to it only when the count is not
    0, prints the summary line and then the total, which is the number of
    occurrences without a marker, and exits with status 0; arguments after
    the path are ignored. *)
Theorem main_success (argv : list string) (env : environment) (content : text) :
  2 <= length argv ->
  read_text env (nth 1 argv EmptyString) = Some content ->
  writable env (nth 1 argv EmptyString) = true ->
  stdout_encodes env = true ->
  main argv env =
    (EvRead (nth 1 argv EmptyString)
       :: (if length (filter fresh (finditer content)) =? 0 then []
           else [EvWrite (nth 1 argv EmptyString) (fst (transform content))])
       ++ [EvPrint (if length (filter fresh (finditer content)) =? 0
                    then MsgNoChanges (nth 1 argv EmptyString)
                    else MsgAdded (length (filter fresh (finditer content)))
                           (nth 1 argv EmptyString));
           EvPrint (MsgTotal (length (filter fresh (finditer content))))],
     Exit 0).
Proof.
  intros Hl Hfs Hw Hp. rewrite <- transform_count. apply main_run; assumption.
Qed.

Lemma main_success_witness :
  main ["add-error-logging.py"; "routes.js"; "ignored.js"]%string
       (one_file "routes.js" sample_catch true true)
  = ([EvRead "routes.js"; EvWrite "routes.js" (fst (transform sample_catch));
      EvPrint (MsgAdded 1 "routes.js"); EvPrint (MsgTotal 1)], Exit 0).
Proof.
  apply (main_success ["add-error-logging.py"; "routes.js"; "ignored.js"]%string
           (one_file "routes.js" sample_catch true true) sample_catch).
  - simpl. lia.
  - reflexivity.
  - reflexivity.
  - reflexivity.
Defined.

(** X2.  Each modification makes the text longer by the 53 characters of the
    inserted line, and by nothing else. *)
Theorem transform_length (filepath : string) (content : text) :
  length (fst (transform content))
  = length content + 53 * returned (add_error_logging_to_file filepath content).
Proof.
  rewrite returned_eq. unfold transform.
  destruct (re_sub_length content 0) as [H _].
  change (length INSERTED) with 53 in H. lia.
Qed.

(** X3.  The pattern matches at the front of a text exactly when the text
    starts with [  } catch (], a non-empty parameter without [)], [) {],
    white space, a newline, [    console.error(], a non-empty rest of line,
    a newline and [    res.status(]; the groups are then these three parts,
    whatever the order in which the repetitions are tried. *)
Theorem pattern_matches_exactly (s : text) (m : MatchObj) (r : text) :
  match_pattern s = Some (m, r) <->
  exists P ws X,
    s = str "  } catch (" ++ P ++ str ") {" ++ ws ++ [nl]
        ++ str "    console.error(" ++ X ++ [nl] ++ str "    res.status(" ++ r /\
    m = mkMatch (str "  } catch (" ++ P ++ str ") {" ++ ws ++ [nl])
                (str "    console.error(" ++ X ++ [nl])
                (str "    res.status(") /\
    P <> [] /\ ~ In rparen P /\
    forallb is_space ws = true /\
    X <> [] /\ ~ In nl X.
Proof.
  split.
  - intros [Hm ->]%match_pattern_sound.
    apply Shape_inv in Hm as (P & ws & X & -> & HP & HP' & Hws & HX & HX').
    exists P, ws, X. split_all; auto.
    + unfold group0. cbn [group1 group2 group3]. rewrite <- !app_assoc. reflexivity.
    + apply forallb_CNot, HP'.
    + apply forallb_CNot, HX'.
  - intros (P & ws & X & -> & -> & HP & HP' & Hws & HX & HX').
    apply forallb_CNot in HP', HX'.
    apply (match_pattern_shape P ws X r); assumption.
Qed.

(** X4.  A content that lacks one of the three literals of the pattern,
    [  } catch (], [    console.error(] or [    res.status(], is returned
    unchanged with count 0. *)
Theorem missing_literal_unchanged (content : text) :
  ~ Contains CATCH content \/ ~ Contains CERR content \/ ~ Contains RSTAT content ->
  transform content = (content, 0).
Proof.
  intros H.
  assert (Hnone : forall pos m, In (pos, m) (finditer content) -> exempt m = true).
  { intros pos m (pre & post & _ & Hc & _ & Hm & _)%finditer_split. exfalso.
    apply Shape_inv in Hm as (P & ws & X & -> & _).
    unfold group0 in Hc. cbn [group1 group2 group3] in Hc.
    destruct H as [H|[H|H]]; apply H; rewrite Hc.
    - exists pre, (P ++ BRACE ++ ws ++ [nl] ++ (CERR ++ X ++ [nl]) ++ RSTAT ++ post).
      rewrite <- !app_assoc. reflexivity.
    - exists (pre ++ CATCH ++ P ++ BRACE ++ ws ++ [nl]), (X ++ [nl] ++ RSTAT ++ post).
      rewrite <- !app_assoc. reflexivity.
    - exists (pre ++ (CATCH ++ P ++ BRACE ++ ws ++ [nl]) ++ CERR ++ X ++ [nl]), post.
      rewrite <- !app_assoc. reflexivity. }
  assert (Hn : snd (transform content) = 0)
    by (rewrite transform_count, (filter_fresh_none _ Hnone); reflexivity).
  pose proof (proj1 (transform_same_iff content) Hn) as Hs.
  destruct (transform content) as [out n]. cbn [fst snd] in *. congruence.
Qed.

Lemma missing_literal_unchanged_witness :
  transform (str "  } catch (error) {" ++ [nl] ++ str "    console.error('x');" ++ [nl])
  = (str "  } catch (error) {" ++ [nl] ++ str "    console.error('x');" ++ [nl], 0).
Proof.
  apply missing_literal_unchanged.
  right. right. intros C. apply contains_spec in C. vm_compute in C. discriminate C.
Defined.

(** X5.  An occurrence has at least 51 characters and occurrences do not
    overlap: a content has at most one occurrence, and so at most one
    modification, per 51 characters. *)
Theorem occurrences_bound (filepath : string) (content : text) :
  51 * length (finditer content) <= length content
  /\ returned (add_error_logging_to_file filepath content) <= length (finditer content).
Proof.
  split.
  - apply finditer_from_bound.
  - rewrite returned_eq, transform_count. apply filter_length_le.
Qed.

(** X6.  When the file can be read and written and the standard output can
    encode the summary lines, running the program again on what the first run
    left changes nothing: the second run reads the file, writes nothing,
    prints the no-change line and a total of 0, and exits with status 0. *)
Theorem second_run_is_noop (argv : list string) (env : environment) (content : text) :
  2 <= length argv ->
  read_text env (nth 1 argv EmptyString) = Some content ->
  writable env (nth 1 argv EmptyString) = true ->
  stdout_encodes env = true ->
  main argv (apply_events (fst (main argv env)) env)
  = ([EvRead (nth 1 argv EmptyString);
      EvPrint (MsgNoChanges (nth 1 argv EmptyString));
      EvPrint (MsgTotal 0)], Exit 0).
Proof.
  intros Hl Hfs Hw Hp. rewrite (main_run argv env content Hl Hfs Hw Hp). cbn [fst].
  destruct (Nat.eqb_spec (snd (transform content)) 0) as [Hn|Hn].
  - cbn [app apply_events].
    rewrite (main_run argv env content Hl Hfs Hw Hp), Hn. reflexivity.
  - cbn [app apply_events].
    rewrite (main_run argv _ (fst (transform content)) Hl); [| |exact Hw|exact Hp].
    2:{ unfold write_file. cbn [read_text]. rewrite String.eqb_refl. reflexivity. }
    replace (transform (fst (transform content))) with (fst (transform content), 0)
      by (symmetry; apply re_sub_idem).
    reflexivity.
Qed.

Lemma second_run_is_noop_witness :
  main ["add-error-logging.py"; "routes.js"]%string
    (apply_events
       (fst (main ["add-error-logging.py"; "routes.js"]%string
               (one_file "routes.js" sample_catch true true)))
       (one_file "routes.js" sample_catch true true))
  = ([EvRead "routes.js"; EvPrint (MsgNoChanges "routes.js"); EvPrint (MsgTotal 0)],
     Exit 0).
Proof.
  apply (second_run_is_noop ["add-error-logging.py"; "routes.js"]%string
           (one_file "routes.js" sample_catch true true) sample_catch).
  - simpl. lia.
  - reflexivity.
  - reflexivity.
  - reflexivity.
Defined.

(** X7.  The output has exactly one line more than the input for each
    modification counted. *)
Theorem transform_line_count (filepath : string) (content : text) :
  length (lines (fst (transform content)))
  = length (lines content) + returned (add_error_logging_to_file filepath content).
Proof.
  rewrite returned_eq. unfold transform.
  pose proof (re_sub_lines content 0). lia.
Qed.


(** X9.  Whatever the callback returns for a match contains
    [logRouteError] or [logCriticalError]. *)
Theorem replacement_has_marker (m : MatchObj) (modifications : nat) :
  Contains LOG_ROUTE (fst (replacement m modifications))
  \/ Contains LOG_CRITICAL (fst (replacement m modifications)).
Proof.
  destruct (exempt m) eqn:He.
  - rewrite (replacement_exempt m _ He). apply exempt_spec, He.
  - rewrite (replacement_fresh m _ He). cbn [fst]. left.
    exists (group1 m ++ group2 m ++ str "    await "),
           (str "(error, req).catch(() => {});" ++ [nl] ++ group3 m).
    rewrite <- !app_assoc. reflexivity.
Qed.

(** X10.  When no line of the input is the inserted statement itself, deleting
    the lines equal to it from the output gives back the lines of the
    input. *)
Theorem delete_inserted_lines (content : text) :
  ~ In STATEMENT (lines content) ->
  filter (fun l => negb (text_eqb l STATEMENT)) (lines (fst (transform content)))
  = lines content.
Proof.
  intros H. apply inserted_into_filter; [|exact H].
  apply inserted_into_lines, re_sub_Ins.
Qed.

Lemma delete_inserted_lines_witness :
  filter (fun l => negb (text_eqb l STATEMENT)) (lines (fst (transform sample_catch)))
  = lines sample_catch.
Proof.
  apply delete_inserted_lines.
  vm_compute. intros H. repeat (destruct H as [H|H]; [discriminate H|]). exact H.
Defined.

(** X11.  When the file can be read but not opened for writing and the
    transformed text differs from the content, the run ends in the uncaught
    exception of [open(filepath, 'w')] right after the read: nothing is
    written and nothing is printed. *)
Theorem main_unwritable (argv : list string) (env : environment) (content : text) :
  2 <= length argv ->
  read_text env (nth 1 argv EmptyString) = Some content ->
  writable env (nth 1 argv EmptyString) = false ->
  fst (transform content) <> content ->
  main argv env = ([EvRead (nth 1 argv EmptyString)], Uncaught).
Proof.
  intros Hl Hfs Hw Hc. unfold main.
  destruct (Nat.ltb_spec (length argv) 2) as [?|_]; [lia|].
  rewrite Hfs, Hw, add_error_logging_to_file_eq.
  destruct (Nat.eqb_spec (snd (transform content)) 0) as [Hn|Hn]; [|reflexivity].
  apply transform_same_iff in Hn. contradiction.
Qed.

Lemma main_unwritable_witness :
  main ["add-error-logging.py"; "routes.js"]%string
       (one_file "routes.js" sample_catch false true)
  = ([EvRead "routes.js"], Uncaught).
Proof.
  apply (main_unwritable ["add-error-logging.py"; "routes.js"]%string
           (one_file "routes.js" sample_catch false true) sample_catch).
  - simpl. lia.
  - reflexivity.
  - reflexivity.
  - vm_compute. discriminate.
Defined.

(** X12.  When the standard output cannot encode the summary line, the run
    ends in the uncaught exception of that [print]: nothing is printed, but a
    writable file whose text changed has already been rewritten. *)
Theorem main_cannot_print (argv : list string) (env : environment) (content : text) :
  2 <= length argv ->
  read_text env (nth 1 argv EmptyString) = Some content ->
  writable env (nth 1 argv EmptyString) = true ->
  stdout_encodes env = false ->
  main argv env =
    (EvRead (nth 1 argv EmptyString)
       :: (if text_eqb (fst (transform content)) content then []
           else [EvWrite (nth 1 argv EmptyString) (fst (transform content))]),
     Uncaught).
Proof.
  intros Hl Hfs Hw Hp. unfold main, print_ok.
  destruct (Nat.ltb_spec (length argv) 2) as [?|_]; [lia|].
  rewrite Hfs, Hw, Hp, add_error_logging_to_file_eq.
  destruct (Nat.eqb_spec (snd (transform content)) 0) as [Hn|Hn].
  - apply transform_same_iff in Hn. rewrite Hn.
    replace (text_eqb content content) with true
      by (symmetry; apply text_eqb_eq; reflexivity).
    reflexivity.
  - destruct (text_eqb (fst (transform content)) content) eqn:Ht; [|reflexivity].
    apply text_eqb_eq, transform_same_iff in Ht. contradiction.
Qed.

Lemma main_cannot_print_witness :
  main ["add-error-logging.py"; "routes.js"]%string
       (one_file "routes.js" sample_catch true false)
  = ([EvRead "routes.js"; EvWrite "routes.js" (fst (transform sample_catch))], Uncaught).
Proof.
  apply (main_cannot_print ["add-error-logging.py"; "routes.js"]%string
           (one_file "routes.js" sample_catch true false) sample_catch).
  - simpl. lia.
  - reflexivity.
  - reflexivity.
  - reflexivity.
Defined.
